(** * protosign: signed service-to-service requests

    A shallow embedding of the Go packages [protosign], [protosign/token]
    and [protosign/keychain], with the properties of the signing and
    validation protocol and of the key-distribution cache.

    Go values are modelled as follows.
    - [string] and [[]byte] are byte sequences: Rocq [string].
    - [error] is an inductive type; a possibly-nil [error] is [option error];
      a function returning [(T, error)] returns [result T].
    - [map[string][]byte] and [http.Header] are [gmap]s keyed by strings.
    - a method with a pointer receiver that mutates its receiver returns the
      updated receiver next to its Go result.
    - [int64] seconds and nanoseconds are [Z]. *)

From Stdlib Require Import ZArith Ascii String List Lia Bool.
From stdpp Require Import base option strings gmap fin_maps list.

Local Open Scope Z_scope.

Abbreviation bytes := string (only parsing).

(** ** Go errors *)

(** [errorString] stands for the values built by [errors.New] and
    [fmt.Errorf]; [ValidationError] is the error type of the jwt-go package
    (text, wrapped error, bit mask of failed checks). *)
#[warnings="-register-all"]
Inductive error : Type :=
| errorString (s : string)
| ValidationError (text : string) (Inner : option error) (Errors : Z).

Inductive result (T : Type) : Type :=
| Ok (v : T)
| Err (e : error).
Arguments Ok {T} v.
Arguments Err {T} e.

(** The [Error()] method, used by the [%v] verb of [fmt.Errorf]. *)
Fixpoint Error (e : error) : string :=
  match e with
  | errorString s => s
  | ValidationError text inner _ =>
      match inner with
      | Some i => Error i
      | None => if String.eqb text EmptyString then "token is invalid" else text
      end
  end.

Definition is_Ok {T} (r : result T) : bool :=
  match r with Ok _ => true | Err _ => false end.

(** ** The fragment of Go's [strings] package used by the keychain *)

Module strings.

Definition len (s : string) : nat := String.length s.

(** [s[i:j]] for [i <= j <= len(s)]. *)
Definition slice (s : string) (i j : nat) : string :=
  String.substring i (j - i) s.

(** [len(s) >= len(prefix) && s[0:len(prefix)] == prefix] *)
Definition HasPrefix (s prefix : string) : bool :=
  (len prefix <=? len s)%nat && String.eqb (slice s 0 (len prefix)) prefix.

(** [len(s) >= len(suffix) && s[len(s)-len(suffix):] == suffix] *)
Definition HasSuffix (s suffix : string) : bool :=
  (len suffix <=? len s)%nat &&
  String.eqb (slice s (len s - len suffix) (len s)) suffix.

Definition TrimPrefix (s prefix : string) : string :=
  if HasPrefix s prefix then slice s (len prefix) (len s) else s.

Definition TrimSuffix (s suffix : string) : string :=
  if HasSuffix s suffix then slice s 0 (len s - len suffix) else s.

End strings.

(** ** net/http: headers and requests *)

Module http.

(** [http.Header] is [map[string][]string].  Both [Add] and [Get] first
    canonicalise the key; every key used by this program is the literal
    Authorization, which is its own canonical form, so the model works on
    canonical keys. *)
Definition values (h : gmap string (list string)) (key : string) : list string :=
  default [] (h !! key).

(** [Header.Add]: [h[key] = append(h[key], value)] *)
Definition Header_Add (h : gmap string (list string)) (key value : string)
  : gmap string (list string) :=
  <[key := values h key ++ [value]]> h.

(** [Header.Get]: the first value associated with the key, the empty string
    if there is none. *)
Definition Header_Get (h : gmap string (list string)) (key : string) : string :=
  match values h key with
  | [] => EmptyString
  | v :: _ => v
  end.

Record URL : Type := mkURL {
  Path : string;
  RawQuery : string
}.

Record Request : Type := mkRequest {
  Method : string;
  Url : URL;
  Header : gmap string (list string);
  Host : string;
  Body : bytes
}.

Definition with_Header (r : Request) (h : gmap string (list string)) : Request :=
  {| Method := Method r; Url := Url r; Header := h;
     Host := Host r; Body := Body r |}.

Definition StatusUnauthorized : Z := 401.

End http.

(** ** Package token: the Bearer carrier *)

Module token.

(** What [.] matches in a Go regular expression without the [s] flag:
    any character but a line feed. *)
Definition dot_matches (c : ascii) : bool :=
  negb (Ascii.eqb c "010"%char).

Fixpoint all_dot (s : string) : bool :=
  match s with
  | EmptyString => true
  | String c s' => dot_matches c && all_dot s'
  end.

(** The compiled pattern of [Get] (start of text, the word Bearer, one
    space, a capture group of any number of [.], end of text) applied with
    [FindStringSubmatch].  The pattern is anchored at both ends of the text
    (no [m] flag), so it matches exactly the texts made of the seven bytes
    of the scheme followed by some [t] with no line feed; the result holds
    the whole match and the capture group, and is [nil] when there is no
    match. *)
Definition matchReg_FindStringSubmatch (s : string) : list string :=
  if strings.HasPrefix s "Bearer " then
    let t := strings.slice s 7 (strings.len s) in
    if all_dot t then [s; t] else []
  else [].

Definition index (l : list string) (i : nat) : string := nth i l EmptyString.

(** [Bearer.Get] *)
Definition Get (r : http.Request) : result string :=
  let tknBearer :=
    matchReg_FindStringSubmatch (http.Header_Get (http.Header r) "Authorization") in
  if (length tknBearer <? 2)%nat || String.eqb (index tknBearer 1) EmptyString then
    Err (errorString "bearer token not found")
  else Ok (index tknBearer 1).

(** [Bearer.Set]: the request after the call, and the returned error. *)
Definition Set_ (r : http.Request) (token : string) : http.Request * option error :=
  (http.with_Header r
     (http.Header_Add (http.Header r) "Authorization" ("Bearer " +:+ token)),
   None).

End token.

(** ** Package keychain *)

Module keychain.

(** The [Provider] interface: one method, [GetPublicKey]. *)
Record Provider : Type := mkProvider {
  GetPublicKey : string -> result bytes
}.

Definition key_suffix : string := "_rsa_public.pem".

(** [val, ok := k.data[issuer]], shared by both providers. *)
Definition lookup_key (data : gmap string bytes) (issuer : string) : result bytes :=
  match data !! issuer with
  | None => Err (errorString ("no data for key " +:+ issuer))
  | Some val => Ok val
  end.

(** *** FileProvider *)

(** The file system as the provider sees it: [ReadDir dir] is
    [ioutil.ReadDir(dir)] reduced to the entries' names, and
    [ReadFile dir name] is [ioutil.ReadFile(path.Join(dir, name))]. *)
Record FileSystem : Type := mkFileSystem {
  ReadDir : string -> result (list string);
  ReadFile : string -> string -> result bytes
}.

Record FileProvider : Type := mkFileProvider {
  FPath : string;
  FRefreshRate : Z;
  Fdata : gmap string bytes
}.

Definition FileProvider_GetPublicKey (k : FileProvider) (issuer : string)
  : result bytes :=
  lookup_key (Fdata k) issuer.

(** The body of the [for _, f := range files] loop of
    [FileProvider.update]; [Err] is the early [return]. *)
Fixpoint File_collect (fs : FileSystem) (dir : string) (files : list string)
    (newVal : gmap string bytes) : result (gmap string bytes) :=
  match files with
  | [] => Ok newVal
  | f :: rest =>
      if negb (strings.HasSuffix f key_suffix) then
        File_collect fs dir rest newVal
      else
        let key := strings.TrimSuffix f key_suffix in
        match ReadFile fs dir f with
        | Err err => Err (errorString ("can't read file: " +:+ Error err))
        | Ok v => File_collect fs dir rest (<[key := v]> newVal)
        end
  end.

(** [FileProvider.update]: the provider after the call and the returned
    error. *)
Definition File_update (fs : FileSystem) (p : FileProvider)
  : FileProvider * option error :=
  match ReadDir fs (FPath p) with
  | Err err => (p, Some (errorString ("can't read directory: " +:+ Error err)))
  | Ok files =>
      match File_collect fs (FPath p) files ∅ with
      | Err e => (p, Some e)
      | Ok newVal =>
          ({| FPath := FPath p; FRefreshRate := FRefreshRate p; Fdata := newVal |},
           None)
      end
  end.

(** *** S3Provider *)

(** [GetObjectOutput], reduced to what [ioutil.ReadAll(out.Body)] yields. *)
Record GetObjectOutput : Type := mkGetObjectOutput {
  ReadAll_Body : result bytes
}.

(** The S3 client: [ListObjectsV2 bucket prefix] gives the keys of
    [out.Contents]; [GetObject bucket key] the object. *)
Record S3Client : Type := mkS3Client {
  ListObjectsV2 : string -> string -> result (list string);
  GetObject : string -> string -> result GetObjectOutput
}.

Record S3Provider : Type := mkS3Provider {
  Bucket : string;
  SPath : string;
  SRefreshRate : Z;
  client : option S3Client;
  Sdata : gmap string bytes
}.

Definition S3Provider_GetPublicKey (k : S3Provider) (issuer : string)
  : result bytes :=
  lookup_key (Sdata k) issuer.

Definition s3_uri (bucket key : string) : string :=
  "s3://" +:+ bucket +:+ "/" +:+ key.

(** The body of the [for _, obj := range out.Contents] loop of
    [S3Provider.update]. *)
Fixpoint S3_collect (c : S3Client) (bucket pref : string) (contents : list string)
    (newVal : gmap string bytes) : result (gmap string bytes) :=
  match contents with
  | [] => Ok newVal
  | objKey :: rest =>
      if negb (strings.HasSuffix objKey key_suffix) then
        S3_collect c bucket pref rest newVal
      else
        match GetObject c bucket objKey with
        | Err err =>
            Err (errorString ("can't load key file `" +:+ s3_uri bucket objKey
                              +:+ "`: " +:+ Error err))
        | Ok out =>
            match ReadAll_Body out with
            | Err err =>
                Err (errorString ("can't read key file `" +:+ s3_uri bucket objKey
                                  +:+ "`: " +:+ Error err))
            | Ok data =>
                let key := strings.TrimSuffix objKey key_suffix in
                let key := strings.TrimPrefix key pref in
                S3_collect c bucket pref rest (<[key := data]> newVal)
            end
        end
  end.

(** [S3Provider.update], run with the client [c] that [p.client] points
    to ([Run] sets it before the first call). *)
Definition S3_update (c : S3Client) (p : S3Provider)
  : S3Provider * option error :=
  let pref := SPath p +:+ "/" in
  match ListObjectsV2 c (Bucket p) pref with
  | Err err => (p, Some (errorString ("can't list S3 bucket: " +:+ Error err)))
  | Ok contents =>
      match S3_collect c (Bucket p) pref contents ∅ with
      | Err e => (p, Some e)
      | Ok newVal =>
          ({| Bucket := Bucket p; SPath := SPath p; SRefreshRate := SRefreshRate p;
              client := client p; Sdata := newVal |}, None)
      end
  end.

(** *** The refresh engine *)

(** The [for { select { ... } }] loop of [Run], the same in both
    providers.  [next] is a channel of capacity one, local to [Run]; the
    loop is driven by the sequence of cases that [select] takes, each
    refresh carrying the state [W] of the key source at that moment. *)
Section RunLoop.
Context {P W : Type}.
Variable update : W -> P -> P * option error.

Inductive Select : Type :=
| SelDone              (* case <-ctx.Done() *)
| SelTick              (* case <-ticker.C *)
| SelNext (w : W).     (* case <-next *)

(** Where [Run] stands after a sequence of [select] choices.  [refreshes]
    counts the calls of [update] made so far. *)
Inductive Outcome : Type :=
| Returned (p : P) (err : option error) (refreshes : nat)
| AtSelect (p : P) (next_full : bool) (refreshes : nat)
| BlockedOnSend (p : P) (refreshes : nat)   (* next <- true on a full channel *)
| NotEnabled.                               (* <-next chosen on an empty channel *)

Fixpoint run_loop (evs : list Select) (p : P) (next_full : bool) (n : nat)
  : Outcome :=
  match evs with
  | [] => AtSelect p next_full n
  | SelDone :: _ => Returned p None n
  | SelTick :: evs' =>
      if next_full then BlockedOnSend p n
      else run_loop evs' p true n
  | SelNext w :: evs' =>
      if next_full then
        match update w p with
        | (p', Some err) => Returned p' (Some err) (S n)
        | (p', None) => run_loop evs' p' false (S n)
        end
      else NotEnabled
  end.
End RunLoop.

Definition ten_seconds : Z := 10 * 1000000000.

(** [FileProvider.Run]: default refresh rate, [next <- true], then the
    loop. *)
Definition FileProvider_Run (evs : list (@Select FileSystem)) (p : FileProvider)
  : Outcome :=
  let p := if FRefreshRate p =? 0
           then {| FPath := FPath p; FRefreshRate := ten_seconds; Fdata := Fdata p |}
           else p in
  run_loop File_update evs p true 0.

(** [S3Provider.Run]; [LoadDefaultConfig] is the result of
    [config.LoadDefaultConfig] followed by [s3.NewFromConfig].  Each refresh
    of the schedule carries the answers that S3 gives through [p.client] at
    that moment. *)
Definition S3Provider_Run (LoadDefaultConfig : result S3Client)
    (evs : list (@Select S3Client)) (p : S3Provider) : Outcome :=
  let p := if SRefreshRate p =? 0
           then {| Bucket := Bucket p; SPath := SPath p; SRefreshRate := ten_seconds;
                   client := client p; Sdata := Sdata p |}
           else p in
  match client p with
  | Some _ => run_loop S3_update evs p true 0
  | None =>
      match LoadDefaultConfig with
      | Err err => Returned p (Some err) 0
      | Ok c =>
          let p := {| Bucket := Bucket p; SPath := SPath p;
                      SRefreshRate := SRefreshRate p;
                      client := Some c; Sdata := Sdata p |} in
          run_loop S3_update evs p true 0
      end
  end.

End keychain.

(** ** The jwt-go package (github.com/dgrijalva/jwt-go v3.2.0, the version
       that go.mod requires)

    The control flow of claim validation and of [ParseWithClaims] follows
    that release.  Encoding, decoding and the RSA primitives are a trusted
    black box: they are the fields of [Lib]. *)

Module jwt.

Definition ValidationErrorMalformed : Z := Z.shiftl 1 0.
Definition ValidationErrorUnverifiable : Z := Z.shiftl 1 1.
Definition ValidationErrorSignatureInvalid : Z := Z.shiftl 1 2.
Definition ValidationErrorExpired : Z := Z.shiftl 1 4.
Definition ValidationErrorIssuedAt : Z := Z.shiftl 1 5.
Definition ValidationErrorNotValidYet : Z := Z.shiftl 1 7.
Definition ValidationErrorClaimsInvalid : Z := Z.shiftl 1 9.

Record StandardClaims : Type := mkStandardClaims {
  Audience : string;
  ExpiresAt : Z;
  Id : string;
  IssuedAt : Z;
  Issuer : string;
  NotBefore : Z;
  Subject : string
}.

(** [verifyExp], [verifyIat], [verifyNbf] of claims.go: a zero timestamp
    is an unset claim and passes unless [required]. *)
Definition verifyExp (exp now : Z) (required : bool) : bool :=
  if exp =? 0 then negb required else now <=? exp.

Definition verifyIat (iat now : Z) (required : bool) : bool :=
  if iat =? 0 then negb required else iat <=? now.

Definition verifyNbf (nbf now : Z) (required : bool) : bool :=
  if nbf =? 0 then negb required else nbf <=? now.

(** [StandardClaims.Valid], with [now] the value of [TimeFunc().Unix()].
    The three claims are optional ([required] is false).  The duration
    that the library appends to the expiry message is left out. *)
Definition StandardClaims_Valid (now : Z) (c : StandardClaims) : option error :=
  let vErr : option error * Z := (None, 0) in
  let vErr :=
    if negb (verifyExp (ExpiresAt c) now false)
    then (Some (errorString "token is expired"),
          Z.lor (snd vErr) ValidationErrorExpired)
    else vErr in
  let vErr :=
    if negb (verifyIat (IssuedAt c) now false)
    then (Some (errorString "Token used before issued"),
          Z.lor (snd vErr) ValidationErrorIssuedAt)
    else vErr in
  let vErr :=
    if negb (verifyNbf (NotBefore c) now false)
    then (Some (errorString "token is not valid yet"),
          Z.lor (snd vErr) ValidationErrorNotValidYet)
    else vErr in
  if snd vErr =? 0 then None
  else Some (ValidationError EmptyString (fst vErr) (snd vErr)).

(** The [Claims] interface; the clock reading is passed in. *)
Class Claims (C : Type) : Type := {
  Valid : Z -> C -> option error
}.

(** The signing methods by their Go type; the string is the [alg] name. *)
Inductive SigningMethod : Type :=
| SigningMethodRSA (alg : string)
| SigningMethodRSAPSS (alg : string)
| SigningMethodHMAC (alg : string)
| SigningMethodECDSA (alg : string)
| signingMethodNone.

Definition SigningMethodRS256 : SigningMethod := SigningMethodRSA "RS256".

(** [SigningMethod.Alg], the name that the token header carries. *)
Definition Alg (m : SigningMethod) : string :=
  match m with
  | SigningMethodRSA alg | SigningMethodRSAPSS alg
  | SigningMethodHMAC alg | SigningMethodECDSA alg => alg
  | signingMethodNone => "none"
  end.

(** The type assertion [t.Method.( *SigningMethodRSA )]. *)
Definition is_SigningMethodRSA (m : SigningMethod) : bool :=
  match m with SigningMethodRSA _ => true | _ => false end.

Record Token (C : Type) : Type := mkToken {
  Method : SigningMethod;
  Claims_ : C;
  Signature : string;
  TokenValid : bool
}.
Arguments mkToken {C}.
Arguments Method {C}.
Arguments Claims_ {C}.
Arguments Signature {C}.
Arguments TokenValid {C}.

(** The primitives of the library.
    - [SignedString m claims key] is
      [NewWithClaims(m, claims).SignedString(key)];
    - [ParseUnverified s] splits and decodes a compact token: the token
      (method looked up from the header, decoded claims), the signing
      string (the first two parts) and the signature part;
    - [Verify m signingString signature key] is the method's [Verify]. *)
Record Lib (C : Type) : Type := mkLib {
  PrivateKey : Type;
  PublicKey : Type;
  ParseRSAPrivateKeyFromPEM : bytes -> result PrivateKey;
  ParseRSAPublicKeyFromPEM : bytes -> result PublicKey;
  SignedString : SigningMethod -> C -> PrivateKey -> result string;
  ParseUnverified : string -> result (Token C * (string * string));
  Verify : SigningMethod -> string -> string -> PublicKey -> option error
}.
Arguments PrivateKey {C}.
Arguments PublicKey {C}.
Arguments ParseRSAPrivateKeyFromPEM {C}.
Arguments ParseRSAPublicKeyFromPEM {C}.
Arguments SignedString {C}.
Arguments ParseUnverified {C}.
Arguments Verify {C}.

(** [Parser.ParseWithClaims] of parser.go, for the default parser (no
    list of valid methods, claims validation not skipped); [now] is the
    clock reading of the parser's own call of [Valid]. *)
Definition ParseWithClaims {C : Type} `{Claims C} (lib : Lib C) (now : Z)
    (tokenString : string) (keyFunc : Token C -> result (PublicKey lib))
  : result (Token C) :=
  match ParseUnverified lib tokenString with
  | Err err => Err err
  | Ok (token, (signingString, signature)) =>
      match keyFunc token with
      | Err err =>
          match err with
          | ValidationError _ _ _ => Err err
          | _ => Err (ValidationError EmptyString (Some err) ValidationErrorUnverifiable)
          end
      | Ok key =>
          let vErr : option error * Z :=
            match Valid now (Claims_ token) with
            | Some (ValidationError _ inner errors) => (inner, errors)
            | Some e => (Some e, ValidationErrorClaimsInvalid)
            | None => (None, 0)
            end in
          let vErr :=
            match Verify lib (Method token) signingString signature key with
            | Some err => (Some err, Z.lor (snd vErr) ValidationErrorSignatureInvalid)
            | None => vErr
            end in
          if snd vErr =? 0 then
            Ok {| Method := Method token; Claims_ := Claims_ token;
                  Signature := signature; TokenValid := true |}
          else Err (ValidationError EmptyString (fst vErr) (snd vErr))
      end
  end.

End jwt.

(** ** Package protosign *)

Record TokenClaims : Type := mkTokenClaims {
  Method : string;
  Path : string;
  StandardClaims : jwt.StandardClaims
}.

(** [Valid] is promoted from the embedded [jwt.StandardClaims]. *)
#[export] Instance TokenClaims_Claims : jwt.Claims TokenClaims := {
  Valid now c := jwt.StandardClaims_Valid now (StandardClaims c)
}.

Record TokenSetter : Type := mkTokenSetter {
  Set_ : http.Request -> string -> http.Request * option error
}.

Record TokenExtractor : Type := mkTokenExtractor {
  Get : http.Request -> result string
}.

(** [&token.Bearer{}] under each of the two interfaces. *)
Definition Bearer_setter : TokenSetter := {| Set_ := token.Set_ |}.
Definition Bearer_extractor : TokenExtractor := {| Get := token.Get |}.

(** *** Signer *)

Record Signer : Type := mkSigner {
  Issuer : string;
  PrivateRSAKey : string;
  TTL : Z;
  Signer_TokenSetter : option TokenSetter
}.

Definition Second : Z := 1000000000.

(** [Time.Unix] of an instant given in nanoseconds since the epoch. *)
Definition Unix (t : Z) : Z := t / Second.

(** [Signer.Sign]; [now] is the reading of [time.Now], in nanoseconds since
    the epoch.  The result is the signer and the request after the call, and
    the returned error. *)
Definition Sign (lib : jwt.Lib TokenClaims) (now : Z) (s : Signer)
    (r : http.Request) (subject : string) : Signer * http.Request * option error :=
  if String.eqb (Issuer s) EmptyString then
    (s, r, Some (errorString "no issuer specified"))
  else if String.eqb (PrivateRSAKey s) EmptyString then
    (s, r, Some (errorString "np private rsa key specified"))
  else
    let setter := default Bearer_setter (Signer_TokenSetter s) in
    let ttl := if TTL s =? 0 then 1 * Second else TTL s in
    let s := {| Issuer := Issuer s; PrivateRSAKey := PrivateRSAKey s;
                TTL := ttl; Signer_TokenSetter := Some setter |} in
    let claims :=
      {| Method := http.Method r;
         Path := http.Path (http.Url r);
         StandardClaims :=
           {| jwt.Audience := EmptyString;
              jwt.ExpiresAt := Unix (now + TTL s);
              jwt.Id := EmptyString;
              jwt.IssuedAt := 0;
              jwt.Issuer := Issuer s;
              jwt.NotBefore := 0;
              jwt.Subject := subject |} |} in
    match jwt.ParseRSAPrivateKeyFromPEM lib (PrivateRSAKey s) with
    | Err err => (s, r, Some err)
    | Ok signKey =>
        match jwt.SignedString lib jwt.SigningMethodRS256 claims signKey with
        | Err err => (s, r, Some err)
        | Ok signedTkn => (s, fst (Set_ setter r signedTkn), None)
        end
    end.

(** *** SignatureValidator *)

(** A configured [OnError] callback; its calls are recorded in [Served]. *)
Inductive Callback : Type := callback.

Record SignatureValidator : Type := mkSignatureValidator {
  Subject : string;
  KeyProvider : option keychain.Provider;
  Token : option TokenExtractor;
  OnError : option Callback
}.

(** What the handler does with a request: exactly one of these. *)
Inductive Served : Type :=
| NextServed (r : http.Request)                       (* next.ServeHTTP(rw, r) *)
| OnErrorCalled (r : http.Request) (err : option error)   (* s.OnError(rw, r, err) *)
| HeaderWritten (status : Z).                          (* rw.WriteHeader(status) *)

(** [SignatureValidator.handleError] *)
Definition handleError (s : SignatureValidator) (r : http.Request)
    (err : option error) : Served :=
  match OnError s with
  | Some _ => OnErrorCalled r err
  | None => HeaderWritten http.StatusUnauthorized
  end.

(** [keyFunc]; [now] is the clock reading of its call of [Valid].  The
    type assertion of the claims to [TokenClaims] cannot fail: the handler
    parses into a [TokenClaims]. *)
Definition keyFunc (lib : jwt.Lib TokenClaims) (now : Z)
    (keysProvider : keychain.Provider) (t : jwt.Token TokenClaims)
  : result (jwt.PublicKey lib) :=
  match jwt.Valid now (jwt.Claims_ t) with
  | Some err => Err err
  | None =>
      if negb (jwt.is_SigningMethodRSA (jwt.Method t)) then
        Err (errorString ("unexpected signing method: " +:+ jwt.Alg (jwt.Method t)))
      else
        let claims := jwt.Claims_ t in
        match keychain.GetPublicKey keysProvider (jwt.Issuer (StandardClaims claims)) with
        | Err err =>
            Err (errorString ("can't find public key for service "
                              +:+ jwt.Issuer (StandardClaims claims)
                              +:+ ": " +:+ Error err))
        | Ok rsaKey =>
            match jwt.ParseRSAPublicKeyFromPEM lib rsaKey with
            | Err err => Err err
            | Ok key => Ok key
            end
        end
  end.

(** The [http.HandlerFunc] that the middleware wraps around [next].
    [now_key] and [now_parse] are the two clock readings of a request: in
    [keyFunc], then in the parser. *)
Definition ServeHTTP (lib : jwt.Lib TokenClaims) (s : SignatureValidator)
    (keys : keychain.Provider) (extractor : TokenExtractor)
    (now_key now_parse : Z) (r : http.Request) : Served :=
  match Get extractor r with
  | Err err => handleError s r (Some err)
  | Ok authToken =>
      match jwt.ParseWithClaims lib now_parse authToken (keyFunc lib now_key keys) with
      | Err err => handleError s r (Some err)
      | Ok tkn =>
          let err : option error := None in
          let claims := jwt.Claims_ tkn in
          if negb (String.eqb (http.Method r) (Method claims))
             || negb (String.eqb (http.Path (http.Url r)) (Path claims))
             || negb (String.eqb (jwt.Subject (StandardClaims claims)) (Subject s))
          then handleError s r err
          else NextServed r
      end
  end.

(** [SignedRequestHandler]: a panic, or the validator with its defaults
    applied and the handler. *)
Inductive Setup : Type :=
| Panic (e : error)
| Middleware (s : SignatureValidator) (h : Z -> Z -> http.Request -> Served).

Definition SignedRequestHandler (lib : jwt.Lib TokenClaims) (s : SignatureValidator)
  : Setup :=
  if String.eqb (Subject s) EmptyString then
    Panic (errorString "SignatureValidator subject missed")
  else
    match KeyProvider s with
    | None => Panic (errorString "SignatureValidator key provider missed")
    | Some keys =>
        let extractor := default Bearer_extractor (Token s) in
        let s := {| Subject := Subject s; KeyProvider := KeyProvider s;
                    Token := Some extractor; OnError := OnError s |} in
        Middleware s (ServeHTTP lib s keys extractor)
    end.

(** ** A small instance of the library, for concrete runs

    A code book stands for the tokens that exist: each entry gives a compact
    token, its signing method and claims, and the name of the key that signed
    it.  A private PEM is the word PRIVATE, a space and a key name; the public
    PEM of the same pair is the word PUBLIC, a space and the same name. *)

Module Codebook.

Record Entry : Type := mkEntry {
  e_token : string;
  e_method : jwt.SigningMethod;
  e_claims : TokenClaims;
  e_key : string
}.

Definition method_eqb (a b : jwt.SigningMethod) : bool :=
  match a, b with
  | jwt.SigningMethodRSA x, jwt.SigningMethodRSA y
  | jwt.SigningMethodRSAPSS x, jwt.SigningMethodRSAPSS y
  | jwt.SigningMethodHMAC x, jwt.SigningMethodHMAC y
  | jwt.SigningMethodECDSA x, jwt.SigningMethodECDSA y => String.eqb x y
  | jwt.signingMethodNone, jwt.signingMethodNone => true
  | _, _ => false
  end.

Definition std_eqb (a b : jwt.StandardClaims) : bool :=
  String.eqb (jwt.Audience a) (jwt.Audience b)
  && (jwt.ExpiresAt a =? jwt.ExpiresAt b)
  && String.eqb (jwt.Id a) (jwt.Id b)
  && (jwt.IssuedAt a =? jwt.IssuedAt b)
  && String.eqb (jwt.Issuer a) (jwt.Issuer b)
  && (jwt.NotBefore a =? jwt.NotBefore b)
  && String.eqb (jwt.Subject a) (jwt.Subject b).

Definition claims_eqb (a b : TokenClaims) : bool :=
  String.eqb (Method a) (Method b) && String.eqb (Path a) (Path b)
  && std_eqb (StandardClaims a) (StandardClaims b).

Definition parse_pem (kind pem : string) : result string :=
  if strings.HasPrefix pem kind then Ok (strings.TrimPrefix pem kind)
  else Err (errorString "invalid key: not a PEM of this kind").

Definition sign (book : list Entry) (m : jwt.SigningMethod) (c : TokenClaims)
    (key : string) : result string :=
  match List.find (fun e => method_eqb (e_method e) m && claims_eqb (e_claims e) c
                            && String.eqb (e_key e) key) book with
  | Some e => Ok (e_token e)
  | None => Err (errorString "cannot sign")
  end.

Definition parse (book : list Entry) (s : string)
  : result (jwt.Token TokenClaims * (string * string)) :=
  match List.find (fun e => String.eqb (e_token e) s) book with
  | Some e =>
      Ok ({| jwt.Method := e_method e; jwt.Claims_ := e_claims e;
             jwt.Signature := EmptyString; jwt.TokenValid := false |},
          (e_token e, e_key e))
  | None => Err (ValidationError "token contains an invalid number of segments"
                   None jwt.ValidationErrorMalformed)
  end.

Definition verify (m : jwt.SigningMethod) (signingString signature key : string)
  : option error :=
  if String.eqb signature key then None
  else Some (errorString "crypto/rsa: verification error").

Definition lib (book : list Entry) : jwt.Lib TokenClaims :=
  {| jwt.PrivateKey := string;
     jwt.PublicKey := string;
     jwt.ParseRSAPrivateKeyFromPEM := parse_pem "PRIVATE ";
     jwt.ParseRSAPublicKeyFromPEM := parse_pem "PUBLIC ";
     jwt.SignedString := sign book;
     jwt.ParseUnverified := parse book;
     jwt.Verify := verify |}.

(** *** Concrete requests, claims and configurations *)

Definition claims (mtd pth iss sub : string) (exp : Z) : TokenClaims :=
  {| Method := mtd; Path := pth;
     StandardClaims :=
       {| jwt.Audience := EmptyString; jwt.ExpiresAt := exp; jwt.Id := EmptyString;
          jwt.IssuedAt := 0; jwt.Issuer := iss; jwt.NotBefore := 0;
          jwt.Subject := sub |} |}.

Definition book : list Entry :=
  [ {| e_token := "tok101"; e_method := jwt.SigningMethodRS256;
       e_claims := claims "GET" "/items" "svc1" "svc2" 101; e_key := "k1" |};
    {| e_token := "tok0"; e_method := jwt.SigningMethodRS256;
       e_claims := claims "GET" "/items" "svc1" "svc2" 0; e_key := "k1" |} ].

Definition request (mtd : string) (h : gmap string (list string)) : http.Request :=
  {| http.Method := mtd;
     http.Url := {| http.Path := "/items"; http.RawQuery := EmptyString |};
     http.Header := h; http.Host := "svc2.local"; http.Body := EmptyString |}.

Definition bearer (tok : string) : gmap string (list string) :=
  {[ "Authorization" := ["Bearer " +:+ tok] ]}.

Definition signer : Signer :=
  {| Issuer := "svc1"; PrivateRSAKey := "PRIVATE k1"; TTL := 0;
     Signer_TokenSetter := None |}.

(** Half a second past second 100: the default TTL gives expiry 101. *)
Definition sign_time : Z := 100 * Second + 500000000.

Definition keys : keychain.FileProvider :=
  {| keychain.FPath := "/keys"; keychain.FRefreshRate := 0;
     keychain.Fdata := {[ "svc1" := "PUBLIC k1" ]} |}.

Definition provider : keychain.Provider :=
  {| keychain.GetPublicKey := keychain.FileProvider_GetPublicKey keys |}.

Definition validator (onError : option Callback) : SignatureValidator :=
  {| Subject := "svc2"; KeyProvider := Some provider; Token := None;
     OnError := onError |}.

(** The handler of a validator, or a handler that writes status 500 where
    the set-up panics. *)
Definition handler_of (s : Setup) : Z -> Z -> http.Request -> Served :=
  match s with
  | Middleware _ h => h
  | Panic _ => fun _ _ _ => HeaderWritten 500
  end.

Definition validator_of (s : Setup) (s0 : SignatureValidator) : SignatureValidator :=
  match s with
  | Middleware s' _ => s'
  | Panic _ => s0
  end.

(** A key directory and three views of it. *)
Definition dir_ok : keychain.FileSystem :=
  {| keychain.ReadDir := fun _ => Ok ["a_rsa_public.pem"; "b_rsa_public.pem"; "not_a_key.txt"];
     keychain.ReadFile := fun _ name =>
       if String.eqb name "a_rsa_public.pem" then Ok "PUBLIC ka"
       else if String.eqb name "b_rsa_public.pem" then Ok "PUBLIC kb"
       else Ok "text" |}.

Definition dir_b_unreadable : keychain.FileSystem :=
  {| keychain.ReadDir := keychain.ReadDir dir_ok;
     keychain.ReadFile := fun d name =>
       if String.eqb name "b_rsa_public.pem"
       then Err (errorString "permission denied")
       else keychain.ReadFile dir_ok d name |}.


Definition bucket_unlisted : keychain.S3Client :=
  {| keychain.ListObjectsV2 := fun _ _ => Err (errorString "access denied");
     keychain.GetObject := fun _ _ => Err (errorString "access denied") |}.

Definition bucket_ok : keychain.S3Client :=
  {| keychain.ListObjectsV2 := fun _ _ =>
       Ok ["keys/a_rsa_public.pem"; "keys/readme.txt"];
     keychain.GetObject := fun _ _ =>
       Ok {| keychain.ReadAll_Body := Ok "PUBLIC ka" |} |}.

Definition s3keys : keychain.S3Provider :=
  {| keychain.Bucket := "bkt"; keychain.SPath := "keys"; keychain.SRefreshRate := 0;
     keychain.client := Some bucket_unlisted;
     keychain.Sdata := {[ "svc1" := "PUBLIC k1" ]} |}.

End Codebook.

(** ** Vocabulary of the keychain properties *)

(** A refresh of the file provider meets a failure: the directory cannot be
    listed, or some listed entry with the key suffix cannot be read. *)
Definition File_refresh_fails (fs : keychain.FileSystem) (p : keychain.FileProvider)
  : Prop :=
  match keychain.ReadDir fs (keychain.FPath p) with
  | Err _ => True
  | Ok files =>
      exists f, In f files /\ strings.HasSuffix f keychain.key_suffix = true /\
                is_Ok (keychain.ReadFile fs (keychain.FPath p) f) = false
  end.

(** [GetObject] followed by [ioutil.ReadAll] of the body, without the error
    texts. *)
Definition S3_read (c : keychain.S3Client) (bucket key : string) : option bytes :=
  match keychain.GetObject c bucket key with
  | Err _ => None
  | Ok out =>
      match keychain.ReadAll_Body out with
      | Err _ => None
      | Ok data => Some data
      end
  end.

(** A refresh of the S3 provider meets a failure: the bucket cannot be
    listed, or some listed object with the key suffix cannot be fetched or
    read. *)
Definition S3_refresh_fails (c : keychain.S3Client) (p : keychain.S3Provider) : Prop :=
  match keychain.ListObjectsV2 c (keychain.Bucket p) (keychain.SPath p +:+ "/") with
  | Err _ => True
  | Ok contents =>
      exists k, In k contents /\ strings.HasSuffix k keychain.key_suffix = true /\
                S3_read c (keychain.Bucket p) k = None
  end.

(** The shape that the loops of both [update] methods share: skip the names
    that [sel] rejects, read the others and store them under [key]; stop at
    the first read that fails. *)
Fixpoint collect (sel : string -> bool) (key : string -> string)
    (read : string -> option bytes) (names : list string)
    (newVal : gmap string bytes) : option (gmap string bytes) :=
  match names with
  | [] => Some newVal
  | f :: rest =>
      if negb (sel f) then collect sel key read rest newVal
      else match read f with
           | None => None
           | Some v => collect sel key read rest (<[key f := v]> newVal)
           end
  end.

(** Whether a string holds a slash. *)
Fixpoint has_slash (s : string) : bool :=
  match s with
  | EmptyString => false
  | String c s' => Ascii.eqb c "/"%char || has_slash s'
  end.

Definition to_option {T} (r : result T) : option T :=
  match r with Ok v => Some v | Err _ => None end.

(** ** Vocabulary of the validation properties *)

(** The request carries, where [extractor] looks, a compact token that
    decodes to [tkn], with signing string [ss] and signature part [sig]. *)
Definition presents (lib : jwt.Lib TokenClaims) (extractor : TokenExtractor)
    (r : http.Request) (tkn : jwt.Token TokenClaims) (ss sig : string) : Prop :=
  exists authToken,
    Get extractor r = Ok authToken /\
    jwt.ParseUnverified lib authToken = Ok (tkn, (ss, sig)).

(** Every check of the validator other than the expiry check passes: the
    issued-at and not-before claims at both clock readings, the signing
    method, the key lookup and parsing, the signature, and the binding of
    method, path and subject. *)
Definition other_checks_pass (lib : jwt.Lib TokenClaims) (s : SignatureValidator)
    (keys : keychain.Provider) (r : http.Request) (tkn : jwt.Token TokenClaims)
    (ss sig : string) (now_key now_parse : Z) : Prop :=
  let c := jwt.Claims_ tkn in
  let std := StandardClaims c in
  (jwt.verifyIat (jwt.IssuedAt std) now_key false = true /\
   jwt.verifyNbf (jwt.NotBefore std) now_key false = true /\
   jwt.verifyIat (jwt.IssuedAt std) now_parse false = true /\
   jwt.verifyNbf (jwt.NotBefore std) now_parse false = true) /\
  jwt.is_SigningMethodRSA (jwt.Method tkn) = true /\
  (exists pem pk,
     keychain.GetPublicKey keys (jwt.Issuer std) = Ok pem /\
     jwt.ParseRSAPublicKeyFromPEM lib pem = Ok pk /\
     jwt.Verify lib (jwt.Method tkn) ss sig pk = None) /\
  (http.Method r = Method c /\
   http.Path (http.Url r) = Path c /\
   jwt.Subject std = Subject s).

(** The handler turns the request down: the error handler is called with an
    error, or status 401 is written; [next] is not served. *)
Definition rejects (s : SignatureValidator) (r : http.Request) (out : Served) : Prop :=
  exists err, out = handleError s r (Some err).

(** The claims that [Sign] builds at instant [now] for a time to live
    [ttl]. *)
Definition signed_claims (now ttl : Z) (issuer : string) (r : http.Request)
    (subject : string) : TokenClaims :=
  {| Method := http.Method r;
     Path := http.Path (http.Url r);
     StandardClaims :=
       {| jwt.Audience := EmptyString;
          jwt.ExpiresAt := Unix (now + ttl);
          jwt.Id := EmptyString;
          jwt.IssuedAt := 0;
          jwt.Issuer := issuer;
          jwt.NotBefore := 0;
          jwt.Subject := subject |} |}.


(** The time to live that [Sign] uses. *)
Definition effective_TTL (s : Signer) : Z :=
  if TTL s =? 0 then 1 * Second else TTL s.

(** ** Vocabulary of the further properties *)

(** The expiry check passes at both clock readings of a request. *)
Definition expiry_checks_pass (tkn : jwt.Token TokenClaims) (now_key now_parse : Z)
  : Prop :=
  let exp := jwt.ExpiresAt (StandardClaims (jwt.Claims_ tkn)) in
  jwt.verifyExp exp now_key false = true /\
  jwt.verifyExp exp now_parse false = true.

(** The number of tick cases in a schedule. *)
Fixpoint ticks {W : Type} (evs : list (@keychain.Select W)) : nat :=
  match evs with
  | [] => 0
  | keychain.SelTick :: evs' => S (ticks evs')
  | _ :: evs' => ticks evs'
  end.

(** The number of refresh requests queued in [next]. *)
Definition pending (next_full : bool) : nat := if next_full then 1%nat else 0%nat.

(** The number of refreshes that an outcome records, and its provider. *)
Definition refreshes_of {P : Type} (o : @keychain.Outcome P) : option nat :=
  match o with
  | keychain.Returned _ _ n | keychain.AtSelect _ _ n
  | keychain.BlockedOnSend _ n => Some n
  | keychain.NotEnabled => None
  end.

Definition provider_of {P : Type} (o : @keychain.Outcome P) : option P :=
  match o with
  | keychain.Returned p _ _ | keychain.AtSelect p _ _
  | keychain.BlockedOnSend p _ => Some p
  | keychain.NotEnabled => None
  end.

(** The refresh rate that [Run] works with. *)
Definition effective_rate (rate : Z) : Z :=
  if rate =? 0 then keychain.ten_seconds else rate.

(** More tokens for concrete runs: one under an HMAC method, one of an
    issuer that the keychain does not know, one of a known issuer signed with
    another key. *)
Module Cases.

Definition book : list Codebook.Entry :=
  [ {| Codebook.e_token := "tokHS"; Codebook.e_method := jwt.SigningMethodHMAC "HS256";
       Codebook.e_claims := Codebook.claims "GET" "/items" "svc1" "svc2" 101;
       Codebook.e_key := "k1" |};
    {| Codebook.e_token := "tok9"; Codebook.e_method := jwt.SigningMethodRS256;
       Codebook.e_claims := Codebook.claims "GET" "/items" "svc9" "svc2" 101;
       Codebook.e_key := "k9" |};
    {| Codebook.e_token := "tokBad"; Codebook.e_method := jwt.SigningMethodRS256;
       Codebook.e_claims := Codebook.claims "GET" "/items" "svc1" "svc2" 101;
       Codebook.e_key := "k2" |};
    {| Codebook.e_token := "tok101"; Codebook.e_method := jwt.SigningMethodRS256;
       Codebook.e_claims := Codebook.claims "GET" "/items" "svc1" "svc2" 101;
       Codebook.e_key := "k1" |} ].

Definition lib : jwt.Lib TokenClaims := Codebook.lib book.

Definition token_of (tok : string) (m : jwt.SigningMethod) (iss : string)
  : jwt.Token TokenClaims :=
  {| jwt.Method := m;
     jwt.Claims_ := Codebook.claims "GET" "/items" iss "svc2" 101;
     jwt.Signature := EmptyString; jwt.TokenValid := false |}.

(** The key directory with an unreadable file that is not a key. *)
Definition dir_note_unreadable : keychain.FileSystem :=
  {| keychain.ReadDir := keychain.ReadDir Codebook.dir_ok;
     keychain.ReadFile := fun d name =>
       if String.eqb name "not_a_key.txt"
       then Err (errorString "permission denied")
       else keychain.ReadFile Codebook.dir_ok d name |}.

Definition s3_no_client : keychain.S3Provider :=
  {| keychain.Bucket := "bkt"; keychain.SPath := "keys"; keychain.SRefreshRate := 0;
     keychain.client := None; keychain.Sdata := ∅ |}.

End Cases.

(** * Properties *)

(** ** Strings *)

Lemma append_cons c a b : String c a +:+ b = String c (a +:+ b).
Proof. reflexivity. Qed.

Lemma append_nil_l b : EmptyString +:+ b = b.
Proof. reflexivity. Qed.

Lemma append_nil_r a : a +:+ EmptyString = a.
Proof. induction a as [|c a IH]; [reflexivity|]. now rewrite append_cons, IH. Qed.

Lemma append_assoc a b c : (a +:+ b) +:+ c = a +:+ (b +:+ c).
Proof.
  induction a as [|x a IH]; [reflexivity|].
  now rewrite !append_cons, IH.
Qed.

Lemma length_append a b :
  String.length (a +:+ b) = (String.length a + String.length b)%nat.
Proof.
  induction a as [|c a IH]; [reflexivity|].
  rewrite append_cons. simpl. now rewrite IH.
Qed.

Lemma append_inj_r a b b' : a +:+ b = a +:+ b' -> b = b'.
Proof.
  induction a as [|c a IH]; [trivial|].
  rewrite !append_cons. intros H. injection H as H. auto.
Qed.

Lemma append_inj_l a a' b : a +:+ b = a' +:+ b -> a = a'.
Proof.
  revert a'. induction a as [|c a IH]; intros [|c' a'] H.
  - reflexivity.
  - apply (f_equal String.length) in H.
    rewrite !length_append in H. simpl in H. lia.
  - apply (f_equal String.length) in H.
    rewrite !length_append in H. simpl in H. lia.
  - rewrite !append_cons in H. injection H as -> H. f_equal. auto.
Qed.

Lemma substring_0_all s : String.substring 0 (String.length s) s = s.
Proof. induction s as [|c s IH]; [reflexivity|]. simpl. now rewrite IH. Qed.

Lemma substring_0_append a b :
  String.substring 0 (String.length a) (a +:+ b) = a.
Proof.
  induction a as [|c a IH].
  - destruct b; reflexivity.
  - rewrite append_cons. simpl. now rewrite IH.
Qed.

Lemma substring_skip_append a b n :
  String.substring (String.length a) n (a +:+ b) = String.substring 0 n b.
Proof.
  induction a as [|c a IH]; [reflexivity|].
  rewrite append_cons. simpl. apply IH.
Qed.

Lemma substring_split s n :
  (n <= String.length s)%nat ->
  String.substring 0 n s +:+ String.substring n (String.length s - n) s = s.
Proof.
  revert n. induction s as [|c s IH]; intros [|n] Hn; simpl in *; try lia.
  - reflexivity.
  - rewrite append_nil_l. now rewrite substring_0_all.
  - rewrite append_cons. f_equal. apply IH. lia.
Qed.

Lemma HasPrefix_spec s p :
  strings.HasPrefix s p = true <-> exists t, s = p +:+ t.
Proof.
  unfold strings.HasPrefix, strings.slice, strings.len. split.
  - intros H. apply andb_true_iff in H as [Hlen Heq].
    apply Nat.leb_le in Hlen. apply String.eqb_eq in Heq.
    exists (String.substring (String.length p) (String.length s - String.length p) s).
    rewrite Nat.sub_0_r in Heq.
    pose proof (substring_split s (String.length p) Hlen) as Hs.
    rewrite Heq in Hs. now symmetry.
  - intros [t ->]. apply andb_true_iff. split.
    + apply Nat.leb_le. rewrite length_append. lia.
    + apply String.eqb_eq. rewrite Nat.sub_0_r. apply substring_0_append.
Qed.

Lemma slice_append_r p t :
  strings.slice (p +:+ t) (strings.len p) (strings.len (p +:+ t)) = t.
Proof.
  unfold strings.slice, strings.len.
  rewrite substring_skip_append, length_append.
  replace (String.length p + String.length t - String.length p)%nat
    with (String.length t) by lia.
  apply substring_0_all.
Qed.

Lemma TrimPrefix_append p t : strings.TrimPrefix (p +:+ t) p = t.
Proof.
  unfold strings.TrimPrefix.
  destruct (strings.HasPrefix (p +:+ t) p) eqn:E.
  - apply slice_append_r.
  - assert (strings.HasPrefix (p +:+ t) p = true) by (apply HasPrefix_spec; eauto).
    congruence.
Qed.

Lemma HasSuffix_spec s x :
  strings.HasSuffix s x = true <-> exists i, s = i +:+ x.
Proof.
  unfold strings.HasSuffix, strings.slice, strings.len. split.
  - intros H. apply andb_true_iff in H as [Hlen Heq].
    apply Nat.leb_le in Hlen. apply String.eqb_eq in Heq.
    exists (String.substring 0 (String.length s - String.length x) s).
    replace (String.length s - (String.length s - String.length x))%nat
      with (String.length x) in Heq by lia.
    assert (Hle : (String.length s - String.length x <= String.length s)%nat) by lia.
    pose proof (substring_split s _ Hle) as Hs.
    replace (String.length s - (String.length s - String.length x))%nat
      with (String.length x) in Hs by lia.
    rewrite Heq in Hs. now symmetry.
  - intros [i ->]. apply andb_true_iff. split.
    + apply Nat.leb_le. rewrite length_append. lia.
    + apply String.eqb_eq. rewrite length_append.
      replace (String.length i + String.length x - String.length x)%nat
        with (String.length i) by lia.
      rewrite substring_skip_append.
      replace (String.length i + String.length x - String.length i)%nat
        with (String.length x) by lia.
      apply substring_0_all.
Qed.

Lemma TrimSuffix_append i x : strings.TrimSuffix (i +:+ x) x = i.
Proof.
  unfold strings.TrimSuffix.
  destruct (strings.HasSuffix (i +:+ x) x) eqn:E.
  - unfold strings.slice, strings.len. rewrite length_append.
    replace (String.length i + String.length x - String.length x - 0)%nat
      with (String.length i) by lia.
    apply substring_0_append.
  - assert (strings.HasSuffix (i +:+ x) x = true) by (apply HasSuffix_spec; eauto).
    congruence.
Qed.

(** A name yields the issuer [i] exactly when it is [i] followed by the
    suffix. *)
Lemma TrimSuffix_eq f x i :
  strings.HasSuffix f x = true -> (strings.TrimSuffix f x = i <-> f = i +:+ x).
Proof.
  intros H. apply HasSuffix_spec in H as [j ->].
  rewrite TrimSuffix_append. split.
  - now intros ->.
  - apply append_inj_l.
Qed.

(** ** The Bearer carrier *)

Lemma values_Header_Add h key value :
  http.values (http.Header_Add h key value) key = http.values h key ++ [value].
Proof.
  unfold http.values at 1, http.Header_Add.
  now rewrite lookup_insert_eq.
Qed.

Lemma FindStringSubmatch_bearer tok :
  token.all_dot tok = true ->
  token.matchReg_FindStringSubmatch ("Bearer " +:+ tok) = ["Bearer " +:+ tok; tok].
Proof.
  intros Hdot. unfold token.matchReg_FindStringSubmatch.
  assert (Hp : strings.HasPrefix ("Bearer " +:+ tok) "Bearer " = true)
    by (apply HasPrefix_spec; eauto).
  rewrite Hp.
  change 7%nat with (strings.len "Bearer ").
  rewrite slice_append_r. now rewrite Hdot.
Qed.

Lemma Get_after_Set (r : http.Request) (tok : string) :
  tok <> EmptyString ->
  token.all_dot tok = true ->
  http.values (http.Header r) "Authorization" = [] ->
  token.Get (fst (token.Set_ r tok)) = Ok tok.
Proof.
  intros Hne Hdot Hunset.
  unfold token.Get, token.Set_, http.Header_Get. simpl.
  rewrite values_Header_Add, Hunset. simpl.
  rewrite (FindStringSubmatch_bearer tok Hdot).
  unfold token.index. simpl.
  destruct (String.eqb_spec tok EmptyString) as [E|_]; [contradiction|].
  reflexivity.
Qed.





(** ** The keychain: one refresh *)

Lemma File_collect_collect fs dir files nv :
  to_option (keychain.File_collect fs dir files nv) =
  collect (fun f => strings.HasSuffix f keychain.key_suffix)
          (fun f => strings.TrimSuffix f keychain.key_suffix)
          (fun f => to_option (keychain.ReadFile fs dir f)) files nv.
Proof.
  revert nv. induction files as [|f rest IH]; intros nv; simpl; [reflexivity|].
  destruct (strings.HasSuffix f keychain.key_suffix); simpl; [|apply IH].
  destruct (keychain.ReadFile fs dir f); simpl; [apply IH | reflexivity].
Qed.

Lemma S3_collect_collect c bucket pref contents nv :
  to_option (keychain.S3_collect c bucket pref contents nv) =
  collect (fun k => strings.HasSuffix k keychain.key_suffix)
          (fun k => strings.TrimPrefix (strings.TrimSuffix k keychain.key_suffix) pref)
          (S3_read c bucket) contents nv.
Proof.
  revert nv. induction contents as [|k rest IH]; intros nv; simpl; [reflexivity|].
  destruct (strings.HasSuffix k keychain.key_suffix); simpl; [|apply IH].
  destruct (keychain.GetObject c bucket k) as [out|] eqn:EG.
  - destruct (keychain.ReadAll_Body out) as [data|] eqn:ER.
    + replace (S3_read c bucket k) with (Some data)
        by (unfold S3_read; now rewrite EG, ER).
      apply IH.
    + replace (S3_read c bucket k) with (@None bytes)
        by (unfold S3_read; now rewrite EG, ER).
      reflexivity.
  - replace (S3_read c bucket k) with (@None bytes)
      by (unfold S3_read; now rewrite EG).
    reflexivity.
Qed.

Section Collect.
Variables (sel : string -> bool) (key : string -> string)
          (read : string -> option bytes).

(** A selected name whose read fails makes the whole loop fail. *)
Lemma collect_fails names nv f :
  In f names -> sel f = true -> read f = None ->
  collect sel key read names nv = None.
Proof.
  revert nv. induction names as [|g rest IH]; intros nv Hin Hsel Hread.
  - destruct Hin.
  - simpl. destruct Hin as [->|Hin].
    + now rewrite Hsel, Hread.
    + destruct (sel g); simpl; [|now apply IH].
      destruct (read g); [now apply IH | reflexivity].
Qed.

(** What a successful loop leaves in the new mapping. *)
Lemma collect_lookup names nv m :
  (forall f g, In f names -> In g names -> sel f = true -> sel g = true ->
               key f = key g -> f = g) ->
  collect sel key read names nv = Some m ->
  forall i v,
    m !! i = Some v <->
    (exists f, In f names /\ sel f = true /\ key f = i /\ read f = Some v) \/
    ((forall f, In f names -> sel f = true -> key f <> i) /\ nv !! i = Some v).
Proof.
  revert nv. induction names as [|f rest IH]; intros nv Hinj Hc i v.
  - simpl in Hc. injection Hc as <-. split.
    + intros H. right. split; [intros ? []|exact H].
    + intros [(g & [] & _)|[_ H]]. exact H.
  - simpl in Hc.
    assert (Hinj' : forall a b, In a rest -> In b rest -> sel a = true ->
                                sel b = true -> key a = key b -> a = b)
      by (intros a b Ha Hb; apply Hinj; now right).
    destruct (sel f) eqn:Hsel; simpl in Hc.
    + destruct (read f) as [w|] eqn:Hread; [|discriminate].
      rewrite (IH _ Hinj' Hc i v). split.
      * intros [(g & Hg & Hsg & Hk & Hr)|[Hno Hnv]].
        -- left. exists g. repeat split; auto. now right.
        -- destruct (String.eqb_spec (key f) i) as [E|N].
           ++ subst i. rewrite lookup_insert_eq in Hnv. injection Hnv as <-.
              left. exists f. repeat split; auto. now left.
           ++ rewrite lookup_insert_ne in Hnv by exact N.
              right. split; [|exact Hnv].
              intros g [<-|Hg] Hsg; [exact N | now apply Hno].
      * intros [(g & [<-|Hg] & Hsg & Hk & Hr)|[Hno Hnv]].
        -- destruct (existsb (fun g => sel g && String.eqb (key g) i) rest) eqn:Ex.
           ++ apply existsb_exists in Ex as (g & Hg & Hb).
              apply andb_true_iff in Hb as [Hsg' Hkg]. apply String.eqb_eq in Hkg.
              assert (g = f) as ->
                by (apply Hinj; [now right | now left | auto | auto | congruence]).
              left. exists f. repeat split; auto.
           ++ right. split.
              ** intros g Hg Hsg' Hkg.
                 assert (existsb (fun g => sel g && String.eqb (key g) i) rest = true);
                   [|congruence].
                 apply existsb_exists. exists g. split; [exact Hg|].
                 apply andb_true_iff. split; [exact Hsg'|now apply String.eqb_eq].
              ** subst i. rewrite lookup_insert_eq. congruence.
        -- left. exists g. repeat split; auto.
        -- right. split; [intros g Hg; apply Hno; now right|].
           rewrite lookup_insert_ne; [exact Hnv|].
           apply Hno; [now left | exact Hsel].
    + rewrite (IH _ Hinj' Hc i v). split.
      * intros [(g & Hg & Hsg & Hk & Hr)|[Hno Hnv]].
        -- left. exists g. repeat split; auto. now right.
        -- right. split; [|exact Hnv].
           intros g [<-|Hg] Hsg; [congruence | now apply Hno].
      * intros [(g & [<-|Hg] & Hsg & Hk & Hr)|[Hno Hnv]].
        -- congruence.
        -- left. exists g. repeat split; auto.
        -- right. split; [intros g Hg; apply Hno; now right | exact Hnv].
Qed.
End Collect.

Lemma append_split a b c d :
  a +:+ b = c +:+ d -> (String.length d <= String.length b)%nat ->
  exists m, b = m +:+ d /\ c = a +:+ m.
Proof.
  revert c. induction a as [|x a IH]; intros c H Hlen.
  - exists c. now rewrite !append_nil_l in *.
  - destruct c as [|y c].
    + apply (f_equal String.length) in H.
      rewrite !length_append in H. simpl in H. lia.
    + rewrite !append_cons in H. injection H as -> H.
      destruct (IH c H Hlen) as (m & Hb & Hc).
      exists m. split; [exact Hb|]. now rewrite append_cons, Hc.
Qed.

Lemma has_slash_append a b : has_slash (a +:+ b) = has_slash a || has_slash b.
Proof.
  induction a as [|c a IH]; [reflexivity|].
  rewrite append_cons. simpl. rewrite IH. now rewrite orb_assoc.
Qed.

(** An object key under the prefix [dir/] that ends with the key suffix
    yields the issuer [i] exactly when it is the prefix, [i] and the suffix. *)
Lemma S3_key_eq dir k i :
  strings.HasPrefix k (dir +:+ "/") = true ->
  strings.HasSuffix k keychain.key_suffix = true ->
  strings.TrimPrefix (strings.TrimSuffix k keychain.key_suffix) (dir +:+ "/") = i <->
  k = (dir +:+ "/") +:+ i +:+ keychain.key_suffix.
Proof.
  intros Hp Hs.
  apply HasPrefix_spec in Hp as [rest Hk].
  apply HasSuffix_spec in Hs as [j Hj].
  assert (Hlen : (String.length keychain.key_suffix <= String.length rest)%nat).
  { destruct (Nat.le_gt_cases (String.length keychain.key_suffix) (String.length rest))
      as [|Hlt]; [assumption|exfalso].
    assert (E : j +:+ keychain.key_suffix = (dir +:+ "/") +:+ rest) by congruence.
    destruct (append_split _ _ _ _ E) as (m & Hsuf & Hdir); [lia|].
    assert (Hm : (1 <= String.length m)%nat).
    { apply (f_equal String.length) in Hsuf. rewrite length_append in Hsuf. lia. }
    symmetry in Hdir.
    destruct (append_split _ _ _ _ Hdir) as (n & Hm' & _); [exact Hm|].
    assert (Hsl : has_slash keychain.key_suffix = true).
    { rewrite Hsuf, Hm', !has_slash_append. simpl. now rewrite orb_true_r. }
    vm_compute in Hsl. discriminate. }
  assert (E : (dir +:+ "/") +:+ rest = j +:+ keychain.key_suffix) by congruence.
  destruct (append_split _ _ _ _ E Hlen) as (m & Hrest & Hjm).
  assert (Ht : strings.TrimSuffix k keychain.key_suffix = j)
    by (rewrite Hj; apply TrimSuffix_append).
  rewrite Ht, Hjm, TrimPrefix_append, Hk, Hrest. split.
  - now intros ->.
  - intros H. apply append_inj_r in H. now apply append_inj_l in H.
Qed.

Section Resolve.
Variables (sel : string -> bool) (key : string -> string)
          (read : string -> option bytes) (name_of : string -> string)
          (names : list string).
Hypothesis Hsel : forall i, sel (name_of i) = true.
Hypothesis Hname :
  forall f i, In f names -> sel f = true -> (key f = i <-> f = name_of i).

(** After a successful loop over [names] from the empty mapping, issuer
    [i] is in the mapping, with the bytes read, exactly when its name is
    among [names]. *)
Lemma collect_resolves m i :
  collect sel key read names ∅ = Some m ->
  (In (name_of i) names ->
     exists v, read (name_of i) = Some v /\ m !! i = Some v) /\
  (~ In (name_of i) names -> m !! i = None).
Proof.
  intros Hc.
  assert (Hinj : forall f g, In f names -> In g names -> sel f = true ->
                             sel g = true -> key f = key g -> f = g).
  { intros f g Hf Hg Hsf Hsg E.
    assert (Ef : f = name_of (key f)) by (now apply (Hname f (key f))).
    assert (Eg : g = name_of (key g)) by (now apply (Hname g (key g))).
    congruence. }
  split.
  - intros Hin.
    destruct (read (name_of i)) as [v|] eqn:Hr.
    + exists v. split; [reflexivity|].
      apply (collect_lookup sel key read names ∅ m Hinj Hc i). left.
      exists (name_of i). repeat split; auto. now apply Hname.
    + rewrite (collect_fails sel key read names ∅ (name_of i) Hin (Hsel i) Hr) in Hc.
      discriminate.
  - intros Hnot. destruct (m !! i) as [v|] eqn:Hm; [exfalso|reflexivity].
    apply (collect_lookup sel key read names ∅ m Hinj Hc i) in Hm
      as [(f & Hf & Hsf & Hk & _)|[_ Hempty]].
    + apply Hname in Hk; auto. subst f. contradiction.
    + now rewrite lookup_empty in Hempty.
Qed.
End Resolve.

Lemma to_option_Ok {T} (r : result T) v : r = Ok v -> to_option r = Some v.
Proof. now intros ->. Qed.

Lemma to_option_Some {T} (r : result T) v : to_option r = Some v -> r = Ok v.
Proof. destruct r; simpl; congruence. Qed.

Lemma to_option_None {T} (r : result T) :
  to_option r = None -> exists e, r = Err e.
Proof. destruct r; simpl; [discriminate|eauto]. Qed.

(** C5.  A refresh that cannot list its key source, or cannot read one of
    the key files it lists, returns an error and leaves the provider,
    mapping included, as it was: every issuer resolves as before.  This holds
    for the file provider and for the S3 provider. *)
Theorem failed_refresh_keeps_mapping :
  (forall fs p,
     File_refresh_fails fs p ->
     snd (keychain.File_update fs p) <> None /\
     fst (keychain.File_update fs p) = p /\
     forall i, keychain.FileProvider_GetPublicKey (fst (keychain.File_update fs p)) i
               = keychain.FileProvider_GetPublicKey p i) /\
  (forall c p,
     S3_refresh_fails c p ->
     snd (keychain.S3_update c p) <> None /\
     fst (keychain.S3_update c p) = p /\
     forall i, keychain.S3Provider_GetPublicKey (fst (keychain.S3_update c p)) i
               = keychain.S3Provider_GetPublicKey p i).
Proof.
  split.
  - intros fs p Hfail. unfold File_refresh_fails in Hfail.
    assert (H : exists e, keychain.File_update fs p = (p, Some e)).
    { unfold keychain.File_update.
      destruct (keychain.ReadDir fs (keychain.FPath p)) as [files|e]; [|eauto].
      destruct Hfail as (f & Hin & Hsuf & Hread).
      pose proof (File_collect_collect fs (keychain.FPath p) files ∅) as Hc.
      rewrite (collect_fails _ _ _ files ∅ f Hin Hsuf) in Hc
        by (destruct (keychain.ReadFile fs (keychain.FPath p) f); [discriminate|reflexivity]).
      apply to_option_None in Hc as [e ->]. eauto. }
    destruct H as [e ->]. simpl. repeat split; congruence.
  - intros c p Hfail. unfold S3_refresh_fails in Hfail.
    assert (H : exists e, keychain.S3_update c p = (p, Some e)).
    { unfold keychain.S3_update.
      destruct (keychain.ListObjectsV2 c (keychain.Bucket p) (keychain.SPath p +:+ "/"))
        as [contents|e]; [|eauto].
      destruct Hfail as (k & Hin & Hsuf & Hread).
      pose proof (S3_collect_collect c (keychain.Bucket p) (keychain.SPath p +:+ "/")
                    contents ∅) as Hc.
      rewrite (collect_fails _ _ _ contents ∅ k Hin Hsuf Hread) in Hc.
      apply to_option_None in Hc as [e ->]. eauto. }
    destruct H as [e ->]. simpl. repeat split; congruence.
Qed.

Lemma failed_refresh_keeps_mapping_witness :
  (File_refresh_fails Codebook.dir_b_unreadable Codebook.keys /\
   fst (keychain.File_update Codebook.dir_b_unreadable Codebook.keys) = Codebook.keys) /\
  (S3_refresh_fails Codebook.bucket_unlisted Codebook.s3keys /\
   fst (keychain.S3_update Codebook.bucket_unlisted Codebook.s3keys) = Codebook.s3keys).
Proof.
  assert (Hf : File_refresh_fails Codebook.dir_b_unreadable Codebook.keys).
  { exists "b_rsa_public.pem". vm_compute. intuition. }
  assert (Hs : S3_refresh_fails Codebook.bucket_unlisted Codebook.s3keys)
    by exact I.
  split; (split; [assumption|]).
  - exact (proj1 (proj2 (proj1 failed_refresh_keeps_mapping _ _ Hf))).
  - exact (proj1 (proj2 (proj2 failed_refresh_keeps_mapping _ _ Hs))).
Defined.

Lemma lookup_key_Some (m : gmap string bytes) i v :
  m !! i = Some v -> keychain.lookup_key m i = Ok v.
Proof. unfold keychain.lookup_key. now intros ->. Qed.

Lemma lookup_key_None (m : gmap string bytes) i :
  m !! i = None ->
  keychain.lookup_key m i = Err (errorString ("no data for key " +:+ i)).
Proof. unfold keychain.lookup_key. now intros ->. Qed.

(** C6.  After a successful refresh, [GetPublicKey] of issuer [i] returns
    the bytes read from the entry named [i] followed by the key suffix when
    the listing holds such an entry, and the unknown-issuer error when it does
    not; entries without the suffix play no part.  For the S3 provider the
    entry is the object whose key is the path prefix, [i] and the suffix,
    the listing holding only keys under the prefix that was asked for. *)
Theorem refresh_resolves_named_keys :
  (forall fs p,
     snd (keychain.File_update fs p) = None ->
     exists files,
       keychain.ReadDir fs (keychain.FPath p) = Ok files /\
       forall i,
         let p' := fst (keychain.File_update fs p) in
         let name := i +:+ "_rsa_public.pem" in
         (In name files ->
          exists v, keychain.ReadFile fs (keychain.FPath p) name = Ok v /\
                    keychain.FileProvider_GetPublicKey p' i = Ok v) /\
         (~ In name files ->
          keychain.FileProvider_GetPublicKey p' i
          = Err (errorString ("no data for key " +:+ i)))) /\
  (forall c p,
     snd (keychain.S3_update c p) = None ->
     exists contents,
       keychain.ListObjectsV2 c (keychain.Bucket p) (keychain.SPath p +:+ "/")
       = Ok contents /\
       ((forall k, In k contents ->
                   strings.HasPrefix k (keychain.SPath p +:+ "/") = true) ->
        forall i,
          let p' := fst (keychain.S3_update c p) in
          let name := (keychain.SPath p +:+ "/") +:+ i +:+ "_rsa_public.pem" in
          (In name contents ->
           exists v, S3_read c (keychain.Bucket p) name = Some v /\
                     keychain.S3Provider_GetPublicKey p' i = Ok v) /\
          (~ In name contents ->
           keychain.S3Provider_GetPublicKey p' i
           = Err (errorString ("no data for key " +:+ i))))).
Proof.
  split.
  - intros fs p. unfold keychain.File_update.
    destruct (keychain.ReadDir fs (keychain.FPath p)) as [files|e]; [|discriminate].
    destruct (keychain.File_collect fs (keychain.FPath p) files ∅) as [m|e] eqn:Ec;
      [|discriminate].
    intros _. exists files. split; [reflexivity|]. intros i. simpl.
    pose proof (File_collect_collect fs (keychain.FPath p) files ∅) as Hc.
    rewrite Ec in Hc. simpl in Hc. symmetry in Hc.
    pose proof (collect_resolves _ _ _ (fun i => i +:+ keychain.key_suffix) files
                  (fun i => proj2 (HasSuffix_spec _ _) (ex_intro _ i eq_refl))
                  (fun f i _ Hs => TrimSuffix_eq f _ i Hs) m i Hc) as [Hin Hout].
    unfold keychain.FileProvider_GetPublicKey. simpl. split.
    + intros H. destruct (Hin H) as (v & Hr & Hm). exists v. split.
      * now apply to_option_Some.
      * now apply lookup_key_Some.
    + intros H. apply lookup_key_None. now apply Hout.
  - intros c p. unfold keychain.S3_update.
    destruct (keychain.ListObjectsV2 c (keychain.Bucket p) (keychain.SPath p +:+ "/"))
      as [contents|e]; [|discriminate].
    destruct (keychain.S3_collect c (keychain.Bucket p) (keychain.SPath p +:+ "/")
                contents ∅) as [m|e] eqn:Ec; [|discriminate].
    intros _. exists contents. split; [reflexivity|]. intros Hpref i. simpl.
    pose proof (S3_collect_collect c (keychain.Bucket p) (keychain.SPath p +:+ "/")
                  contents ∅) as Hc.
    rewrite Ec in Hc. simpl in Hc. symmetry in Hc.
    pose proof (collect_resolves _ _ _
                  (fun i => (keychain.SPath p +:+ "/") +:+ i +:+ keychain.key_suffix)
                  contents
                  (fun i => proj2 (HasSuffix_spec _ _)
                              (ex_intro _ ((keychain.SPath p +:+ "/") +:+ i)
                                 (eq_sym (append_assoc _ _ _))))
                  (fun k i Hk Hs => S3_key_eq (keychain.SPath p) k i (Hpref k Hk) Hs)
                  m i Hc) as [Hin Hout].
    unfold keychain.S3Provider_GetPublicKey. simpl. split.
    + intros H. destruct (Hin H) as (v & Hr & Hm). exists v. split.
      * exact Hr.
      * now apply lookup_key_Some.
    + intros H. apply lookup_key_None. now apply Hout.
Qed.

Lemma refresh_resolves_named_keys_witness :
  keychain.FileProvider_GetPublicKey
    (fst (keychain.File_update Codebook.dir_ok Codebook.keys)) "a" = Ok "PUBLIC ka" /\
  keychain.FileProvider_GetPublicKey
    (fst (keychain.File_update Codebook.dir_ok Codebook.keys)) "not_a_key"
  = Err (errorString "no data for key not_a_key") /\
  keychain.S3Provider_GetPublicKey
    (fst (keychain.S3_update Codebook.bucket_ok Codebook.s3keys)) "a" = Ok "PUBLIC ka".
Proof.
  destruct refresh_resolves_named_keys as [HF HS].
  destruct (HF Codebook.dir_ok Codebook.keys eq_refl) as (files & Hdir & Hf).
  injection Hdir as <-.
  destruct (HS Codebook.bucket_ok Codebook.s3keys eq_refl) as (contents & Hls & Hs).
  injection Hls as <-.
  split; [|split].
  - destruct (proj1 (Hf "a")) as (v & Hr & Hg); [simpl; auto|].
    injection Hr as <-. exact Hg.
  - apply (proj2 (Hf "not_a_key")). simpl. intros [H|[H|[H|[]]]]; discriminate.
  - destruct (proj1 (Hs ltac:(intros k [<-|[<-|[]]]; reflexivity) "a"))
      as (v & Hr & Hg); [simpl; auto|].
    injection Hr as <-. exact Hg.
Defined.

(** ** The refresh engine *)

Section RunLoopFacts.
Context {P W : Type}.
Variable update : W -> P -> P * option error.

Lemma run_loop_app pre rest p b n :
  keychain.run_loop update (pre ++ rest) p b n =
  match keychain.run_loop update pre p b n with
  | keychain.AtSelect p' b' n' => keychain.run_loop update rest p' b' n'
  | o => o
  end.
Proof.
  revert p b n. induction pre as [|ev pre IH]; intros p b n; [reflexivity|].
  destruct ev as [| |w]; simpl.
  - reflexivity.
  - destruct b; [reflexivity|apply IH].
  - destruct b; [|reflexivity].
    destruct (update w p) as [p' [e|]]; [reflexivity|apply IH].
Qed.


(** Conversely, [Run] returns for no other reason: a return of nil comes from
    the cancellation case, a return of an error from a refresh whose
    [update] returned that error. *)
Lemma run_loop_returned evs p b n p' err m :
  keychain.run_loop update evs p b n = keychain.Returned p' err m ->
  exists pre rest p1 b1 n1,
    keychain.run_loop update pre p b n = keychain.AtSelect p1 b1 n1 /\
    ((evs = pre ++ keychain.SelDone :: rest /\ err = None /\ p' = p1 /\ m = n1) \/
     (exists w e, evs = pre ++ keychain.SelNext w :: rest /\ b1 = true /\
                  update w p1 = (p', Some e) /\ err = Some e /\ m = S n1)).
Proof.
  revert p b n. induction evs as [|ev evs IH]; intros p b n H; [discriminate|].
  destruct ev as [| |w]; simpl in H.
  - injection H as <- <- <-.
    exists [], evs, p, b, n. split; [reflexivity|]. left. auto.
  - destruct b; [discriminate|].
    destruct (IH _ _ _ H) as (pre & rest & p1 & b1 & n1 & Hpre & Hcase).
    exists (keychain.SelTick :: pre), rest, p1, b1, n1. split; [exact Hpre|].
    destruct Hcase as [(-> & ? & ? & ?)|(w & e & -> & ? & ? & ? & ?)].
    + left. auto.
    + right. exists w, e. auto.
  - destruct b; [|discriminate].
    destruct (update w p) as [q [e|]] eqn:Hup.
    + injection H as <- <- <-.
      exists [], evs, p, true, n. split; [reflexivity|]. right.
      exists w, e. auto.
    + destruct (IH _ _ _ H) as (pre & rest & p1 & b1 & n1 & Hpre & Hcase).
      exists (keychain.SelNext w :: pre), rest, p1, b1, n1. split.
      * simpl. now rewrite Hup.
      * destruct Hcase as [(-> & ? & ? & ?)|(w' & e' & -> & ? & ? & ? & ?)].
        -- left. auto.
        -- right. exists w', e'. auto.
Qed.
End RunLoopFacts.



(** ** Validation *)

Lemma Valid_None now c :
  jwt.StandardClaims_Valid now c = None <->
  jwt.verifyExp (jwt.ExpiresAt c) now false = true /\
  jwt.verifyIat (jwt.IssuedAt c) now false = true /\
  jwt.verifyNbf (jwt.NotBefore c) now false = true.
Proof.
  unfold jwt.StandardClaims_Valid.
  destruct (jwt.verifyExp _ _ _), (jwt.verifyIat _ _ _), (jwt.verifyNbf _ _ _);
    vm_compute; intuition congruence.
Qed.

Lemma Valid_Some now c e :
  jwt.StandardClaims_Valid now c = Some e ->
  exists inner errors, e = ValidationError EmptyString inner errors /\ errors <> 0.
Proof.
  unfold jwt.StandardClaims_Valid.
  destruct (jwt.verifyExp _ _ _), (jwt.verifyIat _ _ _), (jwt.verifyNbf _ _ _);
    vm_compute; intros H; try discriminate;
    injection H as <-; eexists _, _; (split; [reflexivity|discriminate]).
Qed.

Lemma verifyExp_true exp now :
  jwt.verifyExp exp now false = true <-> exp = 0 \/ now <= exp.
Proof.
  unfold jwt.verifyExp. destruct (Z.eqb_spec exp 0); simpl.
  - intuition.
  - rewrite Z.leb_le. intuition.
Qed.

Section Parse.
Variable lib : jwt.Lib TokenClaims.
Variable keys : keychain.Provider.
Variables (authToken ss sig : string) (tkn : jwt.Token TokenClaims).
Hypothesis Hparse : jwt.ParseUnverified lib authToken = Ok (tkn, (ss, sig)).

Let std := StandardClaims (jwt.Claims_ tkn).

(** The parser returns the token when every check of [keyFunc] and of the
    parser passes. *)
Lemma ParseWithClaims_Ok now_key now_parse pem pk :
  jwt.StandardClaims_Valid now_key std = None ->
  jwt.StandardClaims_Valid now_parse std = None ->
  jwt.is_SigningMethodRSA (jwt.Method tkn) = true ->
  keychain.GetPublicKey keys (jwt.Issuer std) = Ok pem ->
  jwt.ParseRSAPublicKeyFromPEM lib pem = Ok pk ->
  jwt.Verify lib (jwt.Method tkn) ss sig pk = None ->
  jwt.ParseWithClaims lib now_parse authToken (keyFunc lib now_key keys)
  = Ok {| jwt.Method := jwt.Method tkn; jwt.Claims_ := jwt.Claims_ tkn;
          jwt.Signature := sig; jwt.TokenValid := true |}.
Proof.
  intros Hk Hp Hm Hget Hpem Hv. subst std.
  unfold jwt.ParseWithClaims, keyFunc. rewrite Hparse. simpl.
  rewrite Hk, Hm. simpl. rewrite Hget, Hpem, Hp, Hv. reflexivity.
Qed.

(** The parser returns an error when the claims are not valid at one of
    the two clock readings. *)
Lemma ParseWithClaims_Err now_key now_parse :
  jwt.StandardClaims_Valid now_key std <> None \/
  jwt.StandardClaims_Valid now_parse std <> None ->
  exists err,
    jwt.ParseWithClaims lib now_parse authToken (keyFunc lib now_key keys) = Err err.
Proof.
  intros H. subst std. unfold jwt.ParseWithClaims. rewrite Hparse.
  destruct (keyFunc lib now_key keys tkn) as [key|e] eqn:Ek.
  - destruct H as [H|H].
    + unfold keyFunc in Ek. simpl in Ek.
      destruct (jwt.StandardClaims_Valid now_key _); [discriminate|congruence].
    + simpl.
      destruct (jwt.StandardClaims_Valid now_parse _) as [e|] eqn:Ev; [|congruence].
      destruct (Valid_Some _ _ _ Ev) as (inner & errors & -> & Hne).
      destruct (jwt.Verify lib _ ss sig key); simpl.
      * destruct (Z.eqb_spec (Z.lor errors jwt.ValidationErrorSignatureInvalid) 0)
          as [E|_]; [|eauto].
        apply Z.lor_eq_0_iff in E as [E _]. contradiction.
      * destruct (Z.eqb_spec errors 0); [contradiction|eauto].
  - destruct e; eauto.
Qed.
End Parse.

Lemma SignedRequestHandler_Middleware lib s s' h :
  SignedRequestHandler lib s = Middleware s' h ->
  exists keys,
    KeyProvider s = Some keys /\
    Subject s' = Subject s /\ OnError s' = OnError s /\
    h = ServeHTTP lib s' keys (default Bearer_extractor (Token s)).
Proof.
  unfold SignedRequestHandler.
  destruct (String.eqb (Subject s) EmptyString); [discriminate|].
  destruct (KeyProvider s) as [keys|]; [|discriminate].
  intros H. injection H as <- <-. exists keys. auto.
Qed.

Lemma handleError_setup s s' r err :
  OnError s' = OnError s -> handleError s' r err = handleError s r err.
Proof. unfold handleError. now intros ->. Qed.

Section Handler.
Variable lib : jwt.Lib TokenClaims.
Variables (s s' : SignatureValidator) (h : Z -> Z -> http.Request -> Served).
Variable keys : keychain.Provider.
Variables (r : http.Request) (tkn : jwt.Token TokenClaims) (ss sig : string).
Hypothesis Hsetup : SignedRequestHandler lib s = Middleware s' h.
Hypothesis Hkeys : KeyProvider s = Some keys.
Hypothesis Hpresents : presents lib (default Bearer_extractor (Token s)) r tkn ss sig.

Let exp := jwt.ExpiresAt (StandardClaims (jwt.Claims_ tkn)).

(** The handler serves [next] when the expiry check passes at both clock
    readings and every other check passes. *)
Lemma handler_accepts now_key now_parse :
  jwt.verifyExp exp now_key false = true ->
  jwt.verifyExp exp now_parse false = true ->
  other_checks_pass lib s keys r tkn ss sig now_key now_parse ->
  h now_key now_parse r = NextServed r.
Proof.
  intros Hk Hp ((Hi1 & Hn1 & Hi2 & Hn2) & Hm & (pem & pk & Hget & Hpem & Hver)
                & Hbm & Hbp & Hbs).
  destruct (SignedRequestHandler_Middleware _ _ _ _ Hsetup)
    as (keys' & Hkeys' & Hsub & _ & ->).
  assert (keys' = keys) as -> by congruence.
  destruct Hpresents as (authToken & Hget_tok & Hparse).
  unfold ServeHTTP. rewrite Hget_tok.
  rewrite (ParseWithClaims_Ok lib keys authToken ss sig tkn Hparse
             now_key now_parse pem pk); auto.
  - simpl. rewrite Hbm, Hbp, Hbs, Hsub, !String.eqb_refl. reflexivity.
  - apply Valid_None. auto.
  - apply Valid_None. auto.
Qed.

(** The handler turns the request down when the expiry check fails at one
    of the two clock readings. *)
Lemma handler_rejects_expired now_key now_parse :
  jwt.verifyExp exp now_key false = false \/
  jwt.verifyExp exp now_parse false = false ->
  rejects s r (h now_key now_parse r).
Proof.
  intros H.
  destruct (SignedRequestHandler_Middleware _ _ _ _ Hsetup)
    as (keys' & Hkeys' & _ & Hon & ->).
  assert (keys' = keys) as -> by congruence.
  destruct Hpresents as (authToken & Hget_tok & Hparse).
  destruct (ParseWithClaims_Err lib keys authToken ss sig tkn Hparse
              now_key now_parse) as [err Herr].
  { destruct H as [H|H]; [left|right]; intros Hv;
      apply Valid_None in Hv as (Hv & _); fold exp in Hv; congruence. }
  exists err. unfold ServeHTTP. rewrite Hget_tok, Herr.
  now apply handleError_setup.
Qed.
End Handler.



(** ** Signing, then validating *)





(** ** Expiry *)

(** C2, as amended.  For a presented token with a non-zero expiry [exp], in
    seconds: the handler turns the request down when a clock reading of the
    validation is strictly after [exp]; it serves [next] when both readings
    are before or equal to [exp] and every other check passes.  A reading
    equal to [exp] is still within the token's life. *)
Theorem expiry_window lib s s' h keys r tkn ss sig :
  SignedRequestHandler lib s = Middleware s' h ->
  KeyProvider s = Some keys ->
  presents lib (default Bearer_extractor (Token s)) r tkn ss sig ->
  let exp := jwt.ExpiresAt (StandardClaims (jwt.Claims_ tkn)) in
  exp <> 0 ->
  forall now_key now_parse,
    (exp < now_key \/ exp < now_parse -> rejects s r (h now_key now_parse r)) /\
    (now_key <= exp -> now_parse <= exp ->
     other_checks_pass lib s keys r tkn ss sig now_key now_parse ->
     h now_key now_parse r = NextServed r).
Proof.
  intros Hsetup Hkeys Hpres exp Hexp now_key now_parse. split.
  - intros Hlate.
    apply (handler_rejects_expired lib s s' h keys r tkn ss sig Hsetup Hkeys Hpres).
    fold exp. unfold jwt.verifyExp.
    destruct (Z.eqb_spec exp 0); [contradiction|].
    destruct Hlate; [left|right]; apply Z.leb_gt; assumption.
  - intros Hk Hp Hother.
    apply (handler_accepts lib s s' h keys r tkn ss sig Hsetup Hkeys Hpres);
      [apply verifyExp_true; now right | apply verifyExp_true; now right | exact Hother].
Qed.

Lemma codebook_presents tok mtd c key :
  List.find (fun e => String.eqb (Codebook.e_token e) tok) Codebook.book
  = Some (Codebook.mkEntry tok jwt.SigningMethodRS256 c key) ->
  token.all_dot tok = true -> tok <> EmptyString ->
  presents (Codebook.lib Codebook.book) Bearer_extractor
    (Codebook.request mtd (Codebook.bearer tok))
    {| jwt.Method := jwt.SigningMethodRS256; jwt.Claims_ := c;
       jwt.Signature := EmptyString; jwt.TokenValid := false |} tok key.
Proof.
  intros Hfind Hdot Hne. exists tok. split.
  - change (Codebook.request mtd (Codebook.bearer tok))
      with (fst (token.Set_ (Codebook.request mtd ∅) tok)).
    apply Get_after_Set; auto.
  - simpl. unfold Codebook.parse. now rewrite Hfind.
Qed.

Lemma codebook_other_checks tok exp now :
  other_checks_pass (Codebook.lib Codebook.book) (Codebook.validator None)
    Codebook.provider (Codebook.request "GET" (Codebook.bearer tok))
    {| jwt.Method := jwt.SigningMethodRS256;
       jwt.Claims_ := Codebook.claims "GET" "/items" "svc1" "svc2" exp;
       jwt.Signature := EmptyString; jwt.TokenValid := false |} tok "k1" now now.
Proof.
  repeat split. exists "PUBLIC k1", "k1". repeat split.
Qed.

Lemma expiry_window_witness :
  let lib := Codebook.lib Codebook.book in
  let h := Codebook.handler_of (SignedRequestHandler lib (Codebook.validator None)) in
  let r := Codebook.request "GET" (Codebook.bearer "tok101") in
  rejects (Codebook.validator None) r (h 102 102 r) /\
  h 100 100 r = NextServed r.
Proof.
  intros lib h r.
  pose proof (expiry_window lib (Codebook.validator None)
                (Codebook.validator_of (SignedRequestHandler lib (Codebook.validator None))
                   (Codebook.validator None))
                h Codebook.provider r _ "tok101" "k1" eq_refl eq_refl
                (codebook_presents "tok101" "GET" _ "k1" eq_refl eq_refl
                   ltac:(discriminate))
                ltac:(discriminate)) as H.
  split.
  - apply (H 102 102). left. reflexivity.
  - apply (H 100 100); [discriminate | discriminate |].
    apply codebook_other_checks.
Defined.

(** C2, the counterexample.  A token that expires at second 101 is presented
    at second 101, the signature and the binding being right: the handler
    serves [next]; the request is not turned down. *)
Lemma token_accepted_at_expiry :
  let lib := Codebook.lib Codebook.book in
  let r := Codebook.request "GET" (Codebook.bearer "tok101") in
  exists tkn ss sig s' h,
    presents lib Bearer_extractor r tkn ss sig /\
    jwt.ExpiresAt (StandardClaims (jwt.Claims_ tkn)) = 101 /\
    SignedRequestHandler lib (Codebook.validator None) = Middleware s' h /\
    h 101 101 r = NextServed r /\
    ~ rejects (Codebook.validator None) r (h 101 101 r).
Proof.
  intros lib r. eexists _, _, _, _, _. split.
  - apply (codebook_presents "tok101" "GET" _ "k1" eq_refl eq_refl). discriminate.
  - split; [reflexivity|]. split; [reflexivity|].
    assert (E : ServeHTTP lib
                  (Codebook.validator_of
                     (SignedRequestHandler lib (Codebook.validator None))
                     (Codebook.validator None))
                  Codebook.provider Bearer_extractor 101 101 r = NextServed r)
      by (vm_compute; reflexivity).
    split; [exact E|].
    intros [err Herr]. unfold lib, r in *. simpl in Herr, E.
    rewrite E in Herr. discriminate.
Qed.




(** ** Error reporting *)

(** Whatever the request, the handler does one of two things: it serves
    [next] with the request, or it reports through [handleError]. *)
Lemma handler_outcomes lib s s' h now_key now_parse r :
  SignedRequestHandler lib s = Middleware s' h ->
  h now_key now_parse r = NextServed r \/
  exists err, h now_key now_parse r = handleError s r err.
Proof.
  intros Hsetup.
  destruct (SignedRequestHandler_Middleware _ _ _ _ Hsetup) as (keys & _ & _ & Hon & ->).
  unfold ServeHTTP.
  destruct (Get _ r) as [authToken|e].
  - destruct (jwt.ParseWithClaims _ _ _ _) as [tkn|e].
    + simpl. destruct (_ || _); [right|now left].
      exists None. now apply handleError_setup.
    + right. exists (Some e). now apply handleError_setup.
  - right. exists (Some e). now apply handleError_setup.
Qed.

(** Without an error handler, a request that is not served gets status 401. *)
Lemma denied_without_handler lib s s' h now_key now_parse r :
  SignedRequestHandler lib s = Middleware s' h ->
  OnError s = None ->
  h now_key now_parse r = NextServed r \/
  h now_key now_parse r = HeaderWritten http.StatusUnauthorized.
Proof.
  intros Hsetup Hon.
  destruct (handler_outcomes lib s s' h now_key now_parse r Hsetup) as [H|[err H]];
    [now left|right].
  rewrite H. unfold handleError. now rewrite Hon.
Qed.

(** C4, the code at the failing input.  The validator has an error handler;
    the request is a POST and carries a token that verifies and is bound to
    GET.  The handler calls [OnError] with a nil error. *)
Theorem binding_mismatch_reports_nil_error :
  let lib := Codebook.lib Codebook.book in
  let r := Codebook.request "POST" (Codebook.bearer "tok101") in
  exists s' h,
    SignedRequestHandler lib (Codebook.validator (Some callback)) = Middleware s' h /\
    h 100 100 r = OnErrorCalled r None.
Proof.
  intros lib r. eexists _, _. split; [reflexivity|]. vm_compute. reflexivity.
Qed.

(** ** A limit of the refresh engine

    The tick case sends on [next] without checking that the channel has
    room.  When [select] takes a tick while the first refresh request is
    still queued, [Run] stays in that send: it reaches no further [select],
    so neither a later cancellation nor a later refresh is ever taken. *)
Lemma tick_on_full_channel_blocks rest p :
  keychain.FRefreshRate p <> 0 ->
  keychain.FileProvider_Run (keychain.SelTick :: rest) p = keychain.BlockedOnSend p 0.
Proof.
  intros H. unfold keychain.FileProvider_Run.
  destruct (Z.eqb_spec (keychain.FRefreshRate p) 0); [contradiction|reflexivity].
Qed.

(** * Further properties *)

(** ** The Bearer carrier, all cases *)

Lemma FindStringSubmatch_cases v :
  (exists t, v = "Bearer " +:+ t /\ token.all_dot t = true /\
             token.matchReg_FindStringSubmatch v = [v; t]) \/
  (token.matchReg_FindStringSubmatch v = [] /\
   forall t, v = "Bearer " +:+ t -> token.all_dot t = false).
Proof.
  unfold token.matchReg_FindStringSubmatch.
  destruct (strings.HasPrefix v "Bearer ") eqn:Hp.
  - apply HasPrefix_spec in Hp as [t ->].
    change 7%nat with (strings.len "Bearer ").
    rewrite slice_append_r.
    destruct (token.all_dot t) eqn:Hdot.
    + left. exists t. auto.
    + right. split; [reflexivity|].
      intros t' E. apply append_inj_r in E. now subst t'.
  - right. split; [reflexivity|].
    intros t E.
    assert (strings.HasPrefix v "Bearer " = true) by (apply HasPrefix_spec; eauto).
    congruence.
Qed.

Lemma Get_Ok_iff r t :
  token.Get r = Ok t <->
  http.Header_Get (http.Header r) "Authorization" = "Bearer " +:+ t /\
  t <> EmptyString /\ token.all_dot t = true.
Proof.
  unfold token.Get.
  destruct (FindStringSubmatch_cases (http.Header_Get (http.Header r) "Authorization"))
    as [(t0 & Hv & Hdot & Hm)|[Hm Hno]]; rewrite Hm; unfold token.index; simpl.
  - destruct (String.eqb_spec t0 EmptyString) as [E|N]; split.
    + discriminate.
    + intros (Hv' & Hne & _). rewrite Hv in Hv'. apply append_inj_r in Hv'. congruence.
    + intros H. injection H as <-. auto.
    + intros (Hv' & _ & _). rewrite Hv in Hv'. apply append_inj_r in Hv'. congruence.
  - split; [discriminate|].
    intros (Hv & _ & Hdot). rewrite (Hno t Hv) in Hdot. discriminate.
Qed.

Lemma Get_Err r e : token.Get r = Err e -> e = errorString "bearer token not found".
Proof.
  unfold token.Get. destruct (_ || _); [|discriminate]. now intros [= <-].
Qed.

(** X1.  [Bearer.Get] returns a token exactly when the first Authorization
    value is the scheme word Bearer, one space and a token that is not empty
    and holds no line feed; that token is what it returns.  In every other
    case (no header, another scheme, the bare scheme word, an empty token, a
    token over several lines) it returns the one error of the carrier. *)
Theorem bearer_get_characterized (r : http.Request) :
  (forall t, token.Get r = Ok t <->
             http.Header_Get (http.Header r) "Authorization" = "Bearer " +:+ t /\
             t <> EmptyString /\ token.all_dot t = true) /\
  (forall e, token.Get r = Err e -> e = errorString "bearer token not found").
Proof. split; [apply Get_Ok_iff | apply Get_Err]. Qed.

Lemma bearer_get_characterized_witness :
  token.Get (Codebook.request "GET" (Codebook.bearer "TKN123")) = Ok "TKN123" /\
  token.Get (Codebook.request "GET" {[ "Authorization" := ["Basic blahblah"] ]})
  = Err (errorString "bearer token not found").
Proof.
  split.
  - apply (proj1 (bearer_get_characterized _)). repeat split. discriminate.
  - destruct (token.Get (Codebook.request "GET"
                 {[ "Authorization" := ["Basic blahblah"] ]})) as [t|e] eqn:E.
    + apply (proj1 (bearer_get_characterized _)) in E as (E & _). discriminate.
    + now rewrite (proj2 (bearer_get_characterized _) e E).
Defined.



(** ** Signer, all cases *)

Lemma Sign_configured lib now s r subject :
  Issuer s <> EmptyString -> PrivateRSAKey s <> EmptyString ->
  Sign lib now s r subject =
  let setter := default Bearer_setter (Signer_TokenSetter s) in
  let s1 := {| Issuer := Issuer s; PrivateRSAKey := PrivateRSAKey s;
               TTL := effective_TTL s; Signer_TokenSetter := Some setter |} in
  match jwt.ParseRSAPrivateKeyFromPEM lib (PrivateRSAKey s) with
  | Err err => (s1, r, Some err)
  | Ok sk =>
      match jwt.SignedString lib jwt.SigningMethodRS256
              (signed_claims now (effective_TTL s) (Issuer s) r subject) sk with
      | Err err => (s1, r, Some err)
      | Ok tok => (s1, fst (Set_ setter r tok), None)
      end
  end.
Proof.
  intros Hi Hp. unfold Sign.
  destruct (String.eqb_spec (Issuer s) EmptyString); [contradiction|].
  destruct (String.eqb_spec (PrivateRSAKey s) EmptyString); [contradiction|].
  reflexivity.
Qed.

Lemma effective_TTL_nonzero s : effective_TTL s <> 0.
Proof.
  unfold effective_TTL, Second. destruct (Z.eqb_spec (TTL s) 0); [lia|assumption].
Qed.



(** X4.  [Sign] never changes the issuer or the key of the signer.  Once
    both are configured it leaves the signer with its defaults applied (a
    time to live that is not zero, one second if none was set, and a token
    setter, Bearer if none was set), also when the call then fails; a signer
    in that state is left unchanged by every further call. *)
Theorem sign_applies_defaults lib now s r subject :
  let s' := fst (fst (Sign lib now s r subject)) in
  Issuer s' = Issuer s /\ PrivateRSAKey s' = PrivateRSAKey s /\
  (Issuer s <> EmptyString -> PrivateRSAKey s <> EmptyString ->
   TTL s' = (if TTL s =? 0 then Second else TTL s) /\ TTL s' <> 0 /\
   Signer_TokenSetter s' = Some (default Bearer_setter (Signer_TokenSetter s)) /\
   forall now2 r2 subject2, fst (fst (Sign lib now2 s' r2 subject2)) = s').
Proof.
  intros s'. subst s'.
  destruct (String.eqb_spec (Issuer s) EmptyString) as [Ei|Ni].
  { unfold Sign. destruct (String.eqb_spec (Issuer s) EmptyString); [|contradiction].
    simpl. split; [reflexivity|]. split; [reflexivity|]. intros H. contradiction. }
  destruct (String.eqb_spec (PrivateRSAKey s) EmptyString) as [Ep|Np].
  { unfold Sign. destruct (String.eqb_spec (Issuer s) EmptyString); [contradiction|].
    destruct (String.eqb_spec (PrivateRSAKey s) EmptyString); [|contradiction].
    simpl. split; [reflexivity|]. split; [reflexivity|]. intros _ H. contradiction. }
  assert (Hs1 : fst (fst (Sign lib now s r subject)) =
                {| Issuer := Issuer s; PrivateRSAKey := PrivateRSAKey s;
                   TTL := effective_TTL s;
                   Signer_TokenSetter :=
                     Some (default Bearer_setter (Signer_TokenSetter s)) |}).
  { rewrite (Sign_configured lib now s r subject Ni Np). simpl.
    destruct (jwt.ParseRSAPrivateKeyFromPEM _ _); [|reflexivity].
    destruct (jwt.SignedString _ _ _ _); reflexivity. }
  rewrite Hs1. simpl. split; [reflexivity|]. split; [reflexivity|]. intros _ _.
  split; [unfold effective_TTL, Second; destruct (TTL s =? 0); lia|].
  split; [apply effective_TTL_nonzero|]. split; [reflexivity|].
  intros now2 r2 subject2.
  rewrite Sign_configured by assumption. simpl.
  assert (Ht : effective_TTL
                 {| Issuer := Issuer s; PrivateRSAKey := PrivateRSAKey s;
                    TTL := effective_TTL s;
                    Signer_TokenSetter :=
                      Some (default Bearer_setter (Signer_TokenSetter s)) |}
               = effective_TTL s).
  { unfold effective_TTL at 1. simpl.
    destruct (Z.eqb_spec (effective_TTL s) 0) as [E|_]; [|reflexivity].
    now apply effective_TTL_nonzero in E. }
  rewrite Ht.
  destruct (jwt.ParseRSAPrivateKeyFromPEM _ _); [|reflexivity].
  destruct (jwt.SignedString _ _ _ _); reflexivity.
Qed.

Lemma sign_applies_defaults_witness :
  let lib := Codebook.lib Codebook.book in
  let s' := fst (fst (Sign lib Codebook.sign_time Codebook.signer
                        (Codebook.request "GET" ∅) "svc2")) in
  TTL s' = Second /\
  fst (fst (Sign lib 0 s' (Codebook.request "POST" ∅) "svc3")) = s'.
Proof.
  intros lib s'.
  destruct (sign_applies_defaults lib Codebook.sign_time Codebook.signer
              (Codebook.request "GET" ∅) "svc2") as (_ & _ & H).
  destruct H as (Httl & _ & _ & Hagain); [discriminate|discriminate|].
  split; [exact Httl|apply Hagain].
Defined.

(** ** Validator, all cases *)

Lemma keyFunc_Ok lib now keys tkn key :
  keyFunc lib now keys tkn = Ok key ->
  jwt.StandardClaims_Valid now (StandardClaims (jwt.Claims_ tkn)) = None /\
  jwt.is_SigningMethodRSA (jwt.Method tkn) = true /\
  exists pem,
    keychain.GetPublicKey keys (jwt.Issuer (StandardClaims (jwt.Claims_ tkn))) = Ok pem /\
    jwt.ParseRSAPublicKeyFromPEM lib pem = Ok key.
Proof.
  unfold keyFunc. simpl.
  destruct (jwt.StandardClaims_Valid now _); [discriminate|].
  destruct (jwt.is_SigningMethodRSA _); simpl; [|discriminate].
  destruct (keychain.GetPublicKey keys _) as [pem|]; [|discriminate].
  destruct (jwt.ParseRSAPublicKeyFromPEM lib pem) as [pk|] eqn:E; [|discriminate].
  intros [= <-]. eauto.
Qed.

Lemma ParseWithClaims_Ok_inv lib keys now_key now_parse authToken t :
  jwt.ParseWithClaims lib now_parse authToken (keyFunc lib now_key keys) = Ok t ->
  exists tkn ss sig pem pk,
    jwt.ParseUnverified lib authToken = Ok (tkn, (ss, sig)) /\
    jwt.StandardClaims_Valid now_key (StandardClaims (jwt.Claims_ tkn)) = None /\
    jwt.StandardClaims_Valid now_parse (StandardClaims (jwt.Claims_ tkn)) = None /\
    jwt.is_SigningMethodRSA (jwt.Method tkn) = true /\
    keychain.GetPublicKey keys (jwt.Issuer (StandardClaims (jwt.Claims_ tkn))) = Ok pem /\
    jwt.ParseRSAPublicKeyFromPEM lib pem = Ok pk /\
    jwt.Verify lib (jwt.Method tkn) ss sig pk = None /\
    jwt.Claims_ t = jwt.Claims_ tkn.
Proof.
  unfold jwt.ParseWithClaims.
  destruct (jwt.ParseUnverified lib authToken) as [[tkn [ss sig]]|]; [|discriminate].
  destruct (keyFunc lib now_key keys tkn) as [key|e] eqn:Ek;
    [|destruct e; discriminate].
  apply keyFunc_Ok in Ek as (Hk & Hm & pem & Hget & Hpem).
  simpl.
  destruct (jwt.StandardClaims_Valid now_parse _) as [e|] eqn:Ev.
  - destruct (Valid_Some _ _ _ Ev) as (inner & errors & -> & Hne).
    destruct (jwt.Verify lib _ ss sig key); simpl.
    + destruct (Z.eqb_spec (Z.lor errors jwt.ValidationErrorSignatureInvalid) 0)
        as [E|_]; [|discriminate].
      apply Z.lor_eq_0_iff in E as [E _]. contradiction.
    + destruct (Z.eqb_spec errors 0); [contradiction|discriminate].
  - destruct (jwt.Verify lib _ ss sig key) eqn:Hv; simpl; [discriminate|].
    intros [= <-]. exists tkn, ss, sig, pem, key. simpl. auto 10.
Qed.

Lemma handleError_not_served s r err r' : handleError s r err <> NextServed r'.
Proof. unfold handleError. destruct (OnError s); discriminate. Qed.

(** What a served request has passed. *)
Lemma ServeHTTP_served lib s keys extractor now_key now_parse r r' :
  ServeHTTP lib s keys extractor now_key now_parse r = NextServed r' ->
  r' = r /\
  exists tkn ss sig,
    presents lib extractor r tkn ss sig /\
    expiry_checks_pass tkn now_key now_parse /\
    other_checks_pass lib s keys r tkn ss sig now_key now_parse.
Proof.
  unfold ServeHTTP.
  destruct (Get extractor r) as [authToken|e] eqn:Eg;
    [|intros H; now apply handleError_not_served in H].
  destruct (jwt.ParseWithClaims lib now_parse authToken _) as [t|e] eqn:Ep;
    [|intros H; now apply handleError_not_served in H].
  apply ParseWithClaims_Ok_inv in Ep
    as (tkn & ss & sig & pem & pk & Hpu & Hk & Hp & Hm & Hget & Hpem & Hv & Hc).
  simpl. rewrite Hc.
  destruct (String.eqb_spec (http.Method r) (Method (jwt.Claims_ tkn))) as [Em|];
    simpl; [|intros H; now apply handleError_not_served in H].
  destruct (String.eqb_spec (http.Path (http.Url r)) (Path (jwt.Claims_ tkn))) as [Ept|];
    simpl; [|intros H; now apply handleError_not_served in H].
  destruct (String.eqb_spec (jwt.Subject (StandardClaims (jwt.Claims_ tkn))) (Subject s))
    as [Es|]; simpl; [|intros H; now apply handleError_not_served in H].
  intros [= <-]. split; [reflexivity|].
  apply Valid_None in Hk as (Hk1 & Hk2 & Hk3).
  apply Valid_None in Hp as (Hp1 & Hp2 & Hp3).
  exists tkn, ss, sig. split; [exists authToken; auto|].
  split; [split; assumption|].
  unfold other_checks_pass. repeat split; auto.
  exists pem, pk. auto.
Qed.

Lemma presents_functional lib extractor r tkn ss sig tkn' ss' sig' :
  presents lib extractor r tkn ss sig -> presents lib extractor r tkn' ss' sig' ->
  tkn' = tkn /\ ss' = ss /\ sig' = sig.
Proof.
  intros (a & Hg & Hp) (a' & Hg' & Hp').
  assert (a' = a) as -> by congruence.
  rewrite Hp in Hp'. injection Hp' as <- <- <-. auto.
Qed.

(** X5.  The handler serves [next] exactly when the request presents a
    token that passes every check: expiry, issued-at and not-before at both
    clock readings, an RSA signing method, a key found for the issuer and
    parsed, a signature that verifies, and method, path and subject equal to
    those of the request and of the validator.  The request it serves is the
    one it received. *)
Theorem handler_serves_iff lib s s' h keys r now_key now_parse :
  SignedRequestHandler lib s = Middleware s' h ->
  KeyProvider s = Some keys ->
  (forall r', h now_key now_parse r = NextServed r' -> r' = r) /\
  (h now_key now_parse r = NextServed r <->
   exists tkn ss sig,
     presents lib (default Bearer_extractor (Token s)) r tkn ss sig /\
     expiry_checks_pass tkn now_key now_parse /\
     other_checks_pass lib s keys r tkn ss sig now_key now_parse).
Proof.
  intros Hsetup Hkeys.
  destruct (SignedRequestHandler_Middleware _ _ _ _ Hsetup)
    as (keys' & Hkeys' & Hsub & _ & Hh).
  assert (keys' = keys) as -> by congruence.
  split.
  - intros r' H. rewrite Hh in H. now apply ServeHTTP_served in H.
  - split.
    + intros H. rewrite Hh in H. apply ServeHTTP_served in H
        as (_ & tkn & ss & sig & Hp & He & Ho).
      exists tkn, ss, sig. split; [exact Hp|]. split; [exact He|].
      unfold other_checks_pass in *. now rewrite <- Hsub.
    + intros (tkn & ss & sig & Hp & [He1 He2] & Ho).
      exact (handler_accepts lib s s' h keys r tkn ss sig Hsetup Hkeys Hp
               now_key now_parse He1 He2 Ho).
Qed.

Lemma handler_serves_iff_witness :
  let lib := Codebook.lib Codebook.book in
  let h := Codebook.handler_of (SignedRequestHandler lib (Codebook.validator None)) in
  let r := Codebook.request "GET" (Codebook.bearer "tok101") in
  h 100 101 r = NextServed r.
Proof.
  intros lib h r.
  destruct (handler_serves_iff lib (Codebook.validator None)
              (Codebook.validator_of (SignedRequestHandler lib (Codebook.validator None))
                 (Codebook.validator None))
              h Codebook.provider r 100 101 eq_refl eq_refl) as [_ Hiff].
  apply Hiff.
  exists (Cases.token_of "tok101" jwt.SigningMethodRS256 "svc1"), "tok101", "k1".
  split; [|split].
  - apply (codebook_presents "tok101" "GET" _ "k1" eq_refl eq_refl). discriminate.
  - split; reflexivity.
  - repeat split. exists "PUBLIC k1", "k1". repeat split.
Defined.

Lemma ParseWithClaims_keyFunc_Err lib keys now_key now_parse authToken tkn ss sig e :
  jwt.ParseUnverified lib authToken = Ok (tkn, (ss, sig)) ->
  keyFunc lib now_key keys tkn = Err (errorString e) ->
  jwt.ParseWithClaims lib now_parse authToken (keyFunc lib now_key keys)
  = Err (ValidationError EmptyString (Some (errorString e))
           jwt.ValidationErrorUnverifiable).
Proof.
  intros Hp Hk. unfold jwt.ParseWithClaims. now rewrite Hp, Hk.
Qed.

Section Rejections.
Variable lib : jwt.Lib TokenClaims.
Variables (s s' : SignatureValidator) (h : Z -> Z -> http.Request -> Served).
Variable keys : keychain.Provider.
Variable r : http.Request.
Hypothesis Hsetup : SignedRequestHandler lib s = Middleware s' h.
Hypothesis Hkeys : KeyProvider s = Some keys.

Lemma handler_unfold now_key now_parse :
  h now_key now_parse r =
  match Get (default Bearer_extractor (Token s)) r with
  | Err err => handleError s r (Some err)
  | Ok authToken =>
      match jwt.ParseWithClaims lib now_parse authToken (keyFunc lib now_key keys) with
      | Err err => handleError s r (Some err)
      | Ok tkn =>
          let claims := jwt.Claims_ tkn in
          if negb (String.eqb (http.Method r) (Method claims))
             || negb (String.eqb (http.Path (http.Url r)) (Path claims))
             || negb (String.eqb (jwt.Subject (StandardClaims claims)) (Subject s))
          then handleError s r None
          else NextServed r
      end
  end.
Proof.
  destruct (SignedRequestHandler_Middleware _ _ _ _ Hsetup)
    as (keys' & Hkeys' & Hsub & Hon & ->).
  assert (keys' = keys) as -> by congruence.
  unfold ServeHTTP. rewrite Hsub.
  destruct (Get _ r); [|now apply handleError_setup].
  destruct (jwt.ParseWithClaims _ _ _ _); [|now apply handleError_setup].
  simpl. destruct (_ || _); [now apply handleError_setup|reflexivity].
Qed.

(** X6.  A request whose first Authorization value is not the scheme word
    Bearer, a space and a non-empty token on one line (no header at all
    included) is turned down with the carrier's error, by a validator that
    uses the Bearer carrier: the library, the keychain and the clock play no
    part. *)
Theorem no_bearer_token_is_rejected now_key now_parse :
  default Bearer_extractor (Token s) = Bearer_extractor ->
  (forall t, http.Header_Get (http.Header r) "Authorization" = "Bearer " +:+ t ->
             t = EmptyString \/ token.all_dot t = false) ->
  h now_key now_parse r
  = handleError s r (Some (errorString "bearer token not found")).
Proof.
  intros Hext Hno. rewrite handler_unfold, Hext. simpl.
  destruct (token.Get r) as [t|e] eqn:Eg.
  - apply Get_Ok_iff in Eg as (Hv & Hne & Hdot).
    destruct (Hno t Hv); congruence.
  - now rewrite (Get_Err r e Eg).
Qed.

Variables (tkn : jwt.Token TokenClaims) (ss sig : string).
Hypothesis Hpresents : presents lib (default Bearer_extractor (Token s)) r tkn ss sig.

Let std := StandardClaims (jwt.Claims_ tkn).

(** X7.  A token whose issuer the keychain does not know is turned down
    with an error that names the issuer and wraps the keychain's error,
    whatever its signature: the signature is not looked at. *)
Theorem unknown_issuer_is_rejected now_key now_parse e :
  jwt.StandardClaims_Valid now_key std = None ->
  jwt.is_SigningMethodRSA (jwt.Method tkn) = true ->
  keychain.GetPublicKey keys (jwt.Issuer std) = Err e ->
  h now_key now_parse r
  = handleError s r
      (Some (ValidationError EmptyString
               (Some (errorString ("can't find public key for service "
                                   +:+ jwt.Issuer std +:+ ": " +:+ Error e)))
               jwt.ValidationErrorUnverifiable)).
Proof.
  intros Hv Hm Hget. subst std. rewrite handler_unfold.
  destruct Hpresents as (authToken & -> & Hparse).
  erewrite ParseWithClaims_keyFunc_Err; [reflexivity|exact Hparse|].
  unfold keyFunc. simpl. now rewrite Hv, Hm, Hget.
Qed.


(** X9.  A token whose signature does not verify under the issuer's key is
    turned down with a validation error that has the signature-invalid bit
    set, whatever its claims say about expiry and binding. *)
Theorem bad_signature_is_rejected now_key now_parse pem pk e :
  jwt.StandardClaims_Valid now_key std = None ->
  jwt.is_SigningMethodRSA (jwt.Method tkn) = true ->
  keychain.GetPublicKey keys (jwt.Issuer std) = Ok pem ->
  jwt.ParseRSAPublicKeyFromPEM lib pem = Ok pk ->
  jwt.Verify lib (jwt.Method tkn) ss sig pk = Some e ->
  exists inner errors,
    h now_key now_parse r
    = handleError s r (Some (ValidationError EmptyString inner errors)) /\
    Z.testbit errors 2 = true.
Proof.
  intros Hv Hm Hget Hpem Hver. subst std. rewrite handler_unfold.
  destruct Hpresents as (authToken & -> & Hparse).
  unfold jwt.ParseWithClaims. rewrite Hparse.
  assert (Hk : keyFunc lib now_key keys tkn = Ok pk)
    by (unfold keyFunc; simpl; now rewrite Hv, Hm, Hget, Hpem).
  rewrite Hk, Hver. simpl.
  set (vErr := match jwt.StandardClaims_Valid now_parse _ with
               | Some (ValidationError _ inner errors) => (inner, errors)
               | Some e0 => (Some e0, jwt.ValidationErrorClaimsInvalid)
               | None => (None, 0)
               end).
  assert (Hbit : Z.testbit (Z.lor (snd vErr) jwt.ValidationErrorSignatureInvalid) 2 = true)
    by (rewrite Z.lor_spec; apply orb_true_r).
  destruct (Z.eqb_spec (Z.lor (snd vErr) jwt.ValidationErrorSignatureInvalid) 0) as [E|_].
  - rewrite E in Hbit. discriminate.
  - eexists _, _. split; [reflexivity|exact Hbit].
Qed.

(** X10.  A request whose token carries a method, a path or a subject that
    differs from the request's method, the request's path or the validator's
    subject is not served, whatever the other checks give; without an error
    handler the answer is status 401. *)
Theorem binding_mismatch_is_not_served now_key now_parse :
  http.Method r <> Method (jwt.Claims_ tkn) \/
  http.Path (http.Url r) <> Path (jwt.Claims_ tkn) \/
  jwt.Subject std <> Subject s ->
  (forall r', h now_key now_parse r <> NextServed r') /\
  (OnError s = None ->
   h now_key now_parse r = HeaderWritten http.StatusUnauthorized).
Proof.
  intros Hmis.
  assert (Hnot : forall r', h now_key now_parse r <> NextServed r').
  { intros r' H.
    destruct (SignedRequestHandler_Middleware _ _ _ _ Hsetup)
      as (keys' & Hkeys' & Hsub & _ & Hh).
    rewrite Hh in H. apply ServeHTTP_served in H
      as (_ & tkn' & ss' & sig' & Hp & _ & _ & _ & _ & Hm & Hpt & Hs).
    destruct (presents_functional _ _ _ _ _ _ _ _ _ Hpresents Hp) as (-> & _ & _).
    rewrite Hsub in Hs. subst std. tauto. }
  split; [exact Hnot|].
  intros Hon.
  destruct (handler_outcomes lib s s' h now_key now_parse r Hsetup) as [H|[err H]].
  - now apply Hnot in H.
  - rewrite H. unfold handleError. now rewrite Hon.
Qed.
End Rejections.

Lemma cases_presents tok mtd m c key :
  List.find (fun e => String.eqb (Codebook.e_token e) tok) Cases.book
  = Some (Codebook.mkEntry tok m c key) ->
  token.all_dot tok = true -> tok <> EmptyString ->
  presents Cases.lib Bearer_extractor
    (Codebook.request mtd (Codebook.bearer tok))
    {| jwt.Method := m; jwt.Claims_ := c;
       jwt.Signature := EmptyString; jwt.TokenValid := false |} tok key.
Proof.
  intros Hfind Hdot Hne. exists tok. split.
  - change (Codebook.request mtd (Codebook.bearer tok))
      with (fst (token.Set_ (Codebook.request mtd ∅) tok)).
    apply Get_after_Set; auto.
  - simpl. unfold Codebook.parse. now rewrite Hfind.
Qed.

Lemma no_bearer_token_is_rejected_witness :
  let lib := Codebook.lib Codebook.book in
  let h := Codebook.handler_of (SignedRequestHandler lib (Codebook.validator None)) in
  h 100 100 (Codebook.request "GET" {[ "Authorization" := ["Basic blahblah"] ]})
  = HeaderWritten 401 /\
  h 100 100 (Codebook.request "GET" ∅) = HeaderWritten 401.
Proof.
  intros lib h. split.
  - apply (no_bearer_token_is_rejected lib (Codebook.validator None)
             (Codebook.validator_of (SignedRequestHandler lib (Codebook.validator None))
                (Codebook.validator None))
             h Codebook.provider _ eq_refl eq_refl 100 100 eq_refl).
    intros t H. vm_compute in H. discriminate.
  - apply (no_bearer_token_is_rejected lib (Codebook.validator None)
             (Codebook.validator_of (SignedRequestHandler lib (Codebook.validator None))
                (Codebook.validator None))
             h Codebook.provider _ eq_refl eq_refl 100 100 eq_refl).
    intros t H. vm_compute in H. discriminate.
Defined.

Lemma unknown_issuer_is_rejected_witness :
  let h := Codebook.handler_of
             (SignedRequestHandler Cases.lib (Codebook.validator (Some callback))) in
  let r := Codebook.request "GET" (Codebook.bearer "tok9") in
  h 100 100 r
  = OnErrorCalled r
      (Some (ValidationError EmptyString
               (Some (errorString
                  "can't find public key for service svc9: no data for key svc9"))
               jwt.ValidationErrorUnverifiable)).
Proof.
  intros h r.
  exact (unknown_issuer_is_rejected Cases.lib (Codebook.validator (Some callback))
           (Codebook.validator_of
              (SignedRequestHandler Cases.lib (Codebook.validator (Some callback)))
              (Codebook.validator (Some callback)))
           h Codebook.provider r eq_refl eq_refl
           (Cases.token_of "tok9" jwt.SigningMethodRS256 "svc9") "tok9" "k9"
           (cases_presents "tok9" "GET" _ _ "k9" eq_refl eq_refl ltac:(discriminate))
           100 100 (errorString "no data for key svc9") eq_refl eq_refl eq_refl).
Defined.


Lemma bad_signature_is_rejected_witness :
  let h := Codebook.handler_of
             (SignedRequestHandler Cases.lib (Codebook.validator None)) in
  let r := Codebook.request "GET" (Codebook.bearer "tokBad") in
  exists inner errors,
    h 100 100 r
    = handleError (Codebook.validator None) r
        (Some (ValidationError EmptyString inner errors)) /\
    Z.testbit errors 2 = true.
Proof.
  intros h r.
  exact (bad_signature_is_rejected Cases.lib (Codebook.validator None)
           (Codebook.validator_of
              (SignedRequestHandler Cases.lib (Codebook.validator None))
              (Codebook.validator None))
           h Codebook.provider r eq_refl eq_refl
           (Cases.token_of "tokBad" jwt.SigningMethodRS256 "svc1") "tokBad" "k2"
           (cases_presents "tokBad" "GET" _ _ "k2" eq_refl eq_refl ltac:(discriminate))
           100 100 "PUBLIC k1" "k1" (errorString "crypto/rsa: verification error")
           eq_refl eq_refl eq_refl eq_refl eq_refl).
Defined.

Lemma binding_mismatch_is_not_served_witness :
  let h := Codebook.handler_of
             (SignedRequestHandler Cases.lib (Codebook.validator None)) in
  let r := Codebook.request "DELETE" (Codebook.bearer "tok101") in
  h 100 100 r = HeaderWritten 401.
Proof.
  intros h r.
  refine (proj2 (binding_mismatch_is_not_served Cases.lib (Codebook.validator None)
           (Codebook.validator_of
              (SignedRequestHandler Cases.lib (Codebook.validator None))
              (Codebook.validator None))
           h r eq_refl
           (Cases.token_of "tok101" jwt.SigningMethodRS256 "svc1") "tok101" "k1"
           (cases_presents "tok101" "DELETE" _ _ "k1" eq_refl eq_refl ltac:(discriminate))
           100 100 _) eq_refl).
  left. discriminate.
Defined.

(** X11.  Without an error handler every request that is not served gets
    the same answer, status 401, whichever check failed and whatever the
    request: two turned-down requests cannot be told apart.  With an error
    handler the validator writes no status itself. *)
Theorem denial_is_uniform lib s s' h :
  SignedRequestHandler lib s = Middleware s' h ->
  (OnError s = None ->
   forall t1 t2 r1 t3 t4 r2,
     (forall r', h t1 t2 r1 <> NextServed r') ->
     (forall r', h t3 t4 r2 <> NextServed r') ->
     h t1 t2 r1 = HeaderWritten http.StatusUnauthorized /\
     h t3 t4 r2 = h t1 t2 r1) /\
  (OnError s <> None ->
   forall t1 t2 r status, h t1 t2 r <> HeaderWritten status).
Proof.
  intros Hsetup. split.
  - intros Hon t1 t2 r1 t3 t4 r2 H1 H2.
    assert (Hd : forall t t' r, (forall r', h t t' r <> NextServed r') ->
                                h t t' r = HeaderWritten http.StatusUnauthorized).
    { intros t t' r Hn.
      destruct (handler_outcomes lib s s' h t t' r Hsetup) as [H|[err H]].
      - now apply Hn in H.
      - rewrite H. unfold handleError. now rewrite Hon. }
    rewrite (Hd _ _ _ H1), (Hd _ _ _ H2). auto.
  - intros Hon t1 t2 r status.
    destruct (handler_outcomes lib s s' h t1 t2 r Hsetup) as [H|[err H]];
      rewrite H; [discriminate|].
    unfold handleError. destruct (OnError s); [discriminate|contradiction].
Qed.

Lemma denial_is_uniform_witness :
  let h := Codebook.handler_of
             (SignedRequestHandler Cases.lib (Codebook.validator None)) in
  h 100 100 (Codebook.request "GET" (Codebook.bearer "tok9"))
  = h 500 500 (Codebook.request "GET" ∅).
Proof.
  intros h.
  destruct (denial_is_uniform Cases.lib (Codebook.validator None)
              (Codebook.validator_of
                 (SignedRequestHandler Cases.lib (Codebook.validator None))
                 (Codebook.validator None)) h eq_refl) as [H _].
  destruct (H eq_refl 500 500 (Codebook.request "GET" ∅)
              100 100 (Codebook.request "GET" (Codebook.bearer "tok9")))
    as [_ E]; [| |exact E]; intros r' Hs; vm_compute in Hs; discriminate.
Defined.

(** X12.  [SignedRequestHandler] panics exactly when the subject is empty or
    the key provider is nil.  Otherwise it keeps subject, key provider and
    error handler, sets the token extractor to Bearer when there is none,
    and setting up the validator it leaves gives the same validator and
    handler again. *)
Theorem setup_characterized lib s :
  ((exists e, SignedRequestHandler lib s = Panic e) <->
   Subject s = EmptyString \/ KeyProvider s = None) /\
  (forall s' h,
     SignedRequestHandler lib s = Middleware s' h ->
     Subject s' = Subject s /\ KeyProvider s' = KeyProvider s /\
     OnError s' = OnError s /\
     Token s' = Some (default Bearer_extractor (Token s)) /\
     SignedRequestHandler lib s' = Middleware s' h).
Proof.
  unfold SignedRequestHandler.
  destruct (String.eqb_spec (Subject s) EmptyString) as [Es|Ns].
  - split; [split; eauto|discriminate].
  - destruct (KeyProvider s) as [keys|] eqn:Ek.
    + split.
      * split; [intros [e H]; discriminate|intros [H|H]; [contradiction|discriminate]].
      * intros s' h [= <- <-]. simpl. repeat split.
        destruct (String.eqb_spec (Subject s) EmptyString); [contradiction|].
        reflexivity.
    + split; [split; eauto|discriminate].
Qed.

Lemma setup_characterized_witness :
  (exists e, SignedRequestHandler Cases.lib
               {| Subject := "svc2"; KeyProvider := None; Token := None;
                  OnError := None |} = Panic e) /\
  Token (Codebook.validator_of
           (SignedRequestHandler Cases.lib (Codebook.validator None))
           (Codebook.validator None)) = Some Bearer_extractor.
Proof.
  split.
  - apply (proj1 (setup_characterized Cases.lib _)). right. reflexivity.
  - exact (proj1 (proj2 (proj2 (proj2
             (proj2 (setup_characterized Cases.lib (Codebook.validator None))
                _ (Codebook.handler_of
                     (SignedRequestHandler Cases.lib (Codebook.validator None)))
                eq_refl))))).
Defined.



(** ** The keychain, further *)

Lemma collect_None sel key read names nv :
  collect sel key read names nv = None ->
  exists f, In f names /\ sel f = true /\ read f = None.
Proof.
  revert nv. induction names as [|g rest IH]; intros nv H; simpl in H; [discriminate|].
  destruct (sel g) eqn:Hs; simpl in H.
  - destruct (read g) as [v|] eqn:Hr.
    + destruct (IH _ H) as (f & Hin & Hsf & Hrf). exists f. split; [now right|auto].
    + exists g. split; [now left|auto].
  - destruct (IH _ H) as (f & Hin & Hsf & Hrf). exists f. split; [now right|auto].
Qed.

Lemma to_option_is_Ok {T} (r : result T) : to_option r = None <-> is_Ok r = false.
Proof. destruct r; simpl; split; congruence. Qed.

(** X14.  A refresh returns no error exactly when the key source can be
    listed and every listed entry with the key suffix can be read, for the
    file provider and for the S3 provider: nothing else makes it fail. *)
Theorem refresh_succeeds_iff :
  (forall fs p, snd (keychain.File_update fs p) = None <-> ~ File_refresh_fails fs p) /\
  (forall c p, snd (keychain.S3_update c p) = None <-> ~ S3_refresh_fails c p).
Proof.
  split.
  - intros fs p. unfold keychain.File_update, File_refresh_fails.
    destruct (keychain.ReadDir fs (keychain.FPath p)) as [files|e]; simpl;
      [|split; [discriminate|tauto]].
    pose proof (File_collect_collect fs (keychain.FPath p) files ∅) as Hc.
    destruct (keychain.File_collect fs (keychain.FPath p) files ∅) as [m|e];
      simpl in *; split.
    + intros _ (f & Hin & Hs & Hr).
      rewrite (collect_fails _ _ _ files ∅ f Hin Hs) in Hc; [discriminate|].
      now apply to_option_is_Ok.
    + reflexivity.
    + discriminate.
    + intros Hno. exfalso. apply Hno. symmetry in Hc.
      apply collect_None in Hc as (f & Hin & Hs & Hr).
      exists f. split; [exact Hin|]. split; [exact Hs|]. now apply to_option_is_Ok.
  - intros c p. unfold keychain.S3_update, S3_refresh_fails.
    destruct (keychain.ListObjectsV2 c (keychain.Bucket p) (keychain.SPath p +:+ "/"))
      as [contents|e]; simpl; [|split; [discriminate|tauto]].
    pose proof (S3_collect_collect c (keychain.Bucket p) (keychain.SPath p +:+ "/")
                  contents ∅) as Hc.
    destruct (keychain.S3_collect c (keychain.Bucket p) (keychain.SPath p +:+ "/")
                contents ∅) as [m|e]; simpl in *; split.
    + intros _ (k & Hin & Hs & Hr).
      rewrite (collect_fails _ _ _ contents ∅ k Hin Hs Hr) in Hc. discriminate.
    + reflexivity.
    + discriminate.
    + intros Hno. exfalso. apply Hno. symmetry in Hc.
      apply collect_None in Hc as (k & Hin & Hs & Hr). eauto.
Qed.

Lemma refresh_succeeds_iff_witness :
  snd (keychain.File_update Codebook.dir_ok Codebook.keys) = None /\
  ~ S3_refresh_fails Codebook.bucket_ok Codebook.s3keys.
Proof.
  split.
  - apply (proj1 refresh_succeeds_iff).
    intros (f & [<-|[<-|[<-|[]]]] & Hs & Hr); vm_compute in Hs, Hr; discriminate.
  - apply (proj2 refresh_succeeds_iff). reflexivity.
Defined.

(** X15.  A refresh replaces the mapping, it does not merge into it: its
    error and, when there is none, the mapping it installs depend on the key
    source and on the configured place only, not on the mapping held before.
    It leaves path (bucket) and refresh rate as they were, and a second
    refresh against an unchanged key source changes nothing more. *)
Theorem refresh_replaces_mapping :
  (forall fs p q,
     keychain.FPath p = keychain.FPath q ->
     snd (keychain.File_update fs p) = snd (keychain.File_update fs q) /\
     (snd (keychain.File_update fs p) = None ->
      keychain.Fdata (fst (keychain.File_update fs p))
      = keychain.Fdata (fst (keychain.File_update fs q))) /\
     keychain.FPath (fst (keychain.File_update fs p)) = keychain.FPath p /\
     keychain.FRefreshRate (fst (keychain.File_update fs p)) = keychain.FRefreshRate p /\
     keychain.File_update fs (fst (keychain.File_update fs p))
     = keychain.File_update fs p) /\
  (forall c p q,
     keychain.Bucket p = keychain.Bucket q -> keychain.SPath p = keychain.SPath q ->
     snd (keychain.S3_update c p) = snd (keychain.S3_update c q) /\
     (snd (keychain.S3_update c p) = None ->
      keychain.Sdata (fst (keychain.S3_update c p))
      = keychain.Sdata (fst (keychain.S3_update c q))) /\
     keychain.Bucket (fst (keychain.S3_update c p)) = keychain.Bucket p /\
     keychain.SPath (fst (keychain.S3_update c p)) = keychain.SPath p /\
     keychain.SRefreshRate (fst (keychain.S3_update c p)) = keychain.SRefreshRate p /\
     keychain.S3_update c (fst (keychain.S3_update c p)) = keychain.S3_update c p).
Proof.
  split.
  - intros fs p q Hpath. unfold keychain.File_update. rewrite <- Hpath.
    destruct (keychain.ReadDir fs (keychain.FPath p)) as [files|e] eqn:Ed; simpl.
    + destruct (keychain.File_collect fs (keychain.FPath p) files ∅) as [m|e] eqn:Ec;
        simpl.
      * repeat split. now rewrite Ed, Ec.
      * repeat split; try discriminate. now rewrite Ed, Ec.
    + repeat split; try discriminate. now rewrite Ed.
  - intros c p q Hb Hpath. unfold keychain.S3_update. rewrite <- Hb, <- Hpath.
    destruct (keychain.ListObjectsV2 c (keychain.Bucket p) (keychain.SPath p +:+ "/"))
      as [contents|e] eqn:Ed; simpl.
    + destruct (keychain.S3_collect c (keychain.Bucket p) (keychain.SPath p +:+ "/")
                  contents ∅) as [m|e] eqn:Ec; simpl.
      * repeat split. now rewrite Ed, Ec.
      * repeat split; try discriminate. now rewrite Ed, Ec.
    + repeat split; try discriminate. now rewrite Ed.
Qed.

Lemma refresh_replaces_mapping_witness :
  keychain.FileProvider_GetPublicKey
    (fst (keychain.File_update Codebook.dir_ok Codebook.keys)) "svc1"
  = keychain.FileProvider_GetPublicKey
      (fst (keychain.File_update Codebook.dir_ok
              (keychain.mkFileProvider "/keys" 0 ∅))) "svc1".
Proof.
  destruct (proj1 refresh_replaces_mapping Codebook.dir_ok Codebook.keys
              (keychain.mkFileProvider "/keys" 0 ∅) eq_refl) as (_ & H & _).
  unfold keychain.FileProvider_GetPublicKey. now rewrite (H eq_refl).
Defined.

Lemma File_collect_ext fs1 fs2 dir files nv :
  (forall f, strings.HasSuffix f keychain.key_suffix = true ->
             keychain.ReadFile fs1 dir f = keychain.ReadFile fs2 dir f) ->
  keychain.File_collect fs1 dir files nv = keychain.File_collect fs2 dir files nv.
Proof.
  intros Hext. revert nv. induction files as [|f rest IH]; intros nv; simpl;
    [reflexivity|].
  destruct (strings.HasSuffix f keychain.key_suffix) eqn:Hs; simpl; [|apply IH].
  rewrite (Hext f Hs).
  destruct (keychain.ReadFile fs2 dir f); [apply IH|reflexivity].
Qed.

(** X16.  A refresh of the file provider reads the listed entries with the
    key suffix and no other file: against two file systems that list the
    directory alike and hold the same key files it gives the same result,
    whatever the other files are, readable or not. *)
Theorem refresh_reads_only_keys fs1 fs2 p :
  keychain.ReadDir fs1 (keychain.FPath p) = keychain.ReadDir fs2 (keychain.FPath p) ->
  (forall f, strings.HasSuffix f keychain.key_suffix = true ->
             keychain.ReadFile fs1 (keychain.FPath p) f
             = keychain.ReadFile fs2 (keychain.FPath p) f) ->
  keychain.File_update fs1 p = keychain.File_update fs2 p.
Proof.
  intros Hdir Hext. unfold keychain.File_update. rewrite Hdir.
  destruct (keychain.ReadDir fs2 (keychain.FPath p)) as [files|e]; [|reflexivity].
  now rewrite (File_collect_ext fs1 fs2 (keychain.FPath p) files ∅ Hext).
Qed.

Lemma refresh_reads_only_keys_witness :
  keychain.File_update Cases.dir_note_unreadable Codebook.keys
  = keychain.File_update Codebook.dir_ok Codebook.keys.
Proof.
  apply refresh_reads_only_keys; [reflexivity|].
  intros f Hs. simpl.
  destruct (String.eqb_spec f "not_a_key.txt") as [->|_]; [|reflexivity].
  vm_compute in Hs. discriminate.
Defined.

(** ** The refresh engine, further *)

Section RunLoopMore.
Context {P W : Type}.
Variable update : W -> P -> P * option error.

Lemma run_loop_refreshes evs p b n :
  (forall m, refreshes_of (keychain.run_loop update evs p b n) = Some m ->
             (m <= n + pending b + ticks evs)%nat) /\
  (forall p' b' n', keychain.run_loop update evs p b n = keychain.AtSelect p' b' n' ->
                    (n' + pending b' = n + pending b + ticks evs)%nat).
Proof.
  revert p b n. induction evs as [|ev evs IH]; intros p b n.
  - simpl. split.
    + intros m [= <-]. lia.
    + intros p' b' n' [= <- <- <-]. lia.
  - destruct ev as [| |w]; simpl.
    + split; [intros m [= <-]; lia|discriminate].
    + destruct b; simpl.
      * split; [intros m [= <-]; lia|discriminate].
      * destruct (IH p true n) as [H1 H2]. split.
        -- intros m Hm. specialize (H1 m Hm). simpl in H1. lia.
        -- intros p' b' n' H. specialize (H2 p' b' n' H). simpl in H2. lia.
    + destruct b; simpl; [|split; discriminate].
      destruct (update w p) as [q [e|]].
      * split; [intros m [= <-]; lia|discriminate].
      * destruct (IH q false (S n)) as [H1 H2]. split.
        -- intros m Hm. specialize (H1 m Hm). simpl in H1. lia.
        -- intros p' b' n' H. specialize (H2 p' b' n' H). simpl in H2. lia.
Qed.

Lemma run_loop_blocks pre rest p b0 n0 p1 n :
  keychain.run_loop update pre p b0 n0 = keychain.AtSelect p1 true n ->
  keychain.run_loop update (pre ++ keychain.SelTick :: rest) p b0 n0
  = keychain.BlockedOnSend p1 n.
Proof. intros H. now rewrite run_loop_app, H. Qed.

Lemma run_loop_invariant (Inv : P -> Prop) evs p b n p' :
  (forall w q, Inv q -> Inv (fst (update w q))) ->
  Inv p ->
  provider_of (keychain.run_loop update evs p b n) = Some p' -> Inv p'.
Proof.
  intros Hupd. revert p b n. induction evs as [|ev evs IH]; intros p b n Hp.
  - simpl. now intros [= <-].
  - destruct ev as [| |w]; simpl.
    + now intros [= <-].
    + destruct b; simpl; [now intros [= <-]|now apply IH].
    + destruct b; simpl; [|discriminate].
      pose proof (Hupd w p Hp) as Hq.
      destruct (update w p) as [q [e|]]; simpl in *.
      * now intros [= <-].
      * now apply IH.
Qed.
End RunLoopMore.

(** X17.  Every refresh that [Run] makes has its own trigger: the one
    queued at start or one tick.  After any sequence of [select] cases the
    refreshes made number at most one more than the ticks taken, and where
    the loop waits in [select] the refreshes made and the request still
    queued number exactly one more than the ticks taken.  This holds for
    both providers. *)
Theorem run_refresh_accounting :
  (forall evs p,
     (forall m, refreshes_of (keychain.FileProvider_Run evs p) = Some m ->
                (m <= 1 + ticks evs)%nat) /\
     (forall p' b' n', keychain.FileProvider_Run evs p = keychain.AtSelect p' b' n' ->
                       (n' + pending b' = 1 + ticks evs)%nat)) /\
  (forall cfg evs p,
     (forall m, refreshes_of (keychain.S3Provider_Run cfg evs p) = Some m ->
                (m <= 1 + ticks evs)%nat) /\
     (forall p' b' n', keychain.S3Provider_Run cfg evs p = keychain.AtSelect p' b' n' ->
                       (n' + pending b' = 1 + ticks evs)%nat)).
Proof.
  split.
  - intros evs p. unfold keychain.FileProvider_Run.
    exact (run_loop_refreshes keychain.File_update evs _ true 0).
  - intros cfg evs p. unfold keychain.S3Provider_Run.
    destruct (keychain.client _).
    + exact (run_loop_refreshes keychain.S3_update evs _ true 0).
    + destruct cfg as [c|e].
      * exact (run_loop_refreshes keychain.S3_update evs _ true 0).
      * simpl. split; [intros m [= <-]; lia|discriminate].
Qed.

Lemma run_refresh_accounting_witness :
  refreshes_of (keychain.FileProvider_Run
                  [keychain.SelNext Codebook.dir_ok; keychain.SelTick;
                   keychain.SelNext Codebook.dir_ok; keychain.SelTick]
                  Codebook.keys) = Some 2%nat.
Proof.
  destruct (keychain.FileProvider_Run
              [keychain.SelNext Codebook.dir_ok; keychain.SelTick;
               keychain.SelNext Codebook.dir_ok; keychain.SelTick] Codebook.keys)
    as [| p' b' n' | |] eqn:E; try (vm_compute in E; discriminate).
  pose proof (proj2 (proj1 run_refresh_accounting _ _) p' b' n' E) as H.
  assert (Hb : b' = true) by (vm_compute in E; congruence).
  subst b'. simpl in H. simpl. f_equal. lia.
Defined.

(** X18.  When [select] takes a tick while a refresh request is still
    queued, [Run] stays in the send on [next] from then on: whatever the
    scheduler offers afterwards, a cancellation included, is never taken,
    and [Run] does not return.  This holds for both providers. *)
Theorem run_blocks_on_tick_when_pending :
  (forall pre rest p p1 n,
     keychain.FileProvider_Run pre p = keychain.AtSelect p1 true n ->
     keychain.FileProvider_Run (pre ++ keychain.SelTick :: rest) p
     = keychain.BlockedOnSend p1 n) /\
  (forall cfg pre rest p p1 n,
     keychain.S3Provider_Run cfg pre p = keychain.AtSelect p1 true n ->
     keychain.S3Provider_Run cfg (pre ++ keychain.SelTick :: rest) p
     = keychain.BlockedOnSend p1 n).
Proof.
  split.
  - intros pre rest p p1 n. unfold keychain.FileProvider_Run. apply run_loop_blocks.
  - intros cfg pre rest p p1 n. unfold keychain.S3Provider_Run.
    destruct (keychain.client _).
    + apply run_loop_blocks.
    + destruct cfg; [apply run_loop_blocks|discriminate].
Qed.

Lemma run_blocks_on_tick_when_pending_witness :
  keychain.FileProvider_Run
    ([keychain.SelNext Codebook.dir_ok; keychain.SelTick]
     ++ keychain.SelTick :: [keychain.SelDone]) Codebook.keys
  = keychain.BlockedOnSend
      (fst (keychain.File_update Codebook.dir_ok
              (keychain.mkFileProvider "/keys" keychain.ten_seconds
                 (keychain.Fdata Codebook.keys)))) 1.
Proof.
  apply (proj1 run_blocks_on_tick_when_pending). reflexivity.
Defined.

Lemma File_update_Err fs p p' e :
  keychain.File_update fs p = (p', Some e) -> p' = p.
Proof.
  unfold keychain.File_update.
  destruct (keychain.ReadDir fs _); [|congruence].
  destruct (keychain.File_collect _ _ _ _); [discriminate|congruence].
Qed.

Lemma S3_update_Err c p p' e :
  keychain.S3_update c p = (p', Some e) -> p' = p.
Proof.
  unfold keychain.S3_update.
  destruct (keychain.ListObjectsV2 c _ _); [|congruence].
  destruct (keychain.S3_collect _ _ _ _ _); [discriminate|congruence].
Qed.

(** X19.  When [Run] of the file provider returns an error, the error is
    that of a refresh taken while the loop waited in [select], and the
    provider is left as it stood at that [select]: it keeps the mapping of
    the last refresh that succeeded (or the initial one), which
    [GetPublicKey] goes on serving. *)
Theorem run_error_keeps_last_mapping evs p p' e m :
  keychain.FileProvider_Run evs p = keychain.Returned p' (Some e) m ->
  exists pre fs rest n,
    evs = pre ++ keychain.SelNext fs :: rest /\
    keychain.FileProvider_Run pre p = keychain.AtSelect p' true n /\
    keychain.File_update fs p' = (p', Some e) /\ m = S n.
Proof.
  unfold keychain.FileProvider_Run. intros H.
  apply run_loop_returned in H
    as (pre & rest & p1 & b1 & n1 & Hpre & [(_ & He & _)|(fs & e' & He & -> & Hu & Hee & ->)]);
    [discriminate|].
  injection Hee as <-.
  pose proof (File_update_Err _ _ _ _ Hu) as ->.
  exists pre, fs, rest, n1. auto.
Qed.

Lemma run_error_keeps_last_mapping_witness :
  let evs := [keychain.SelNext Codebook.dir_ok; keychain.SelTick;
              keychain.SelNext Codebook.dir_b_unreadable] in
  let p1 := fst (keychain.File_update Codebook.dir_ok
                   (keychain.mkFileProvider "/keys" keychain.ten_seconds
                      (keychain.Fdata Codebook.keys))) in
  let e := errorString "can't read file: permission denied" in
  exists pre fs rest n,
    evs = pre ++ keychain.SelNext fs :: rest /\
    keychain.FileProvider_Run pre Codebook.keys = keychain.AtSelect p1 true n /\
    keychain.File_update fs p1 = (p1, Some e) /\ 2%nat = S n.
Proof.
  intros evs p1 e.
  apply (run_error_keeps_last_mapping evs Codebook.keys p1 e 2).
  vm_compute. reflexivity.
Defined.

(** X20.  [Run] never changes where a provider looks for keys, and works
    with the configured refresh rate, ten seconds when none is set: whatever
    the schedule, the provider it leaves has the path (bucket and path) it
    started with and that rate. *)
Theorem run_keeps_configuration :
  (forall evs p p',
     provider_of (keychain.FileProvider_Run evs p) = Some p' ->
     keychain.FPath p' = keychain.FPath p /\
     keychain.FRefreshRate p' = effective_rate (keychain.FRefreshRate p) /\
     keychain.FRefreshRate p' <> 0) /\
  (forall cfg evs p p',
     provider_of (keychain.S3Provider_Run cfg evs p) = Some p' ->
     keychain.Bucket p' = keychain.Bucket p /\ keychain.SPath p' = keychain.SPath p /\
     keychain.SRefreshRate p' = effective_rate (keychain.SRefreshRate p) /\
     keychain.SRefreshRate p' <> 0).
Proof.
  assert (Hrate : forall rate, effective_rate rate <> 0).
  { intros rate. unfold effective_rate, keychain.ten_seconds.
    destruct (Z.eqb_spec rate 0); [lia|assumption]. }
  split.
  - intros evs p p' H. unfold keychain.FileProvider_Run in H.
    apply (run_loop_invariant keychain.File_update
             (fun q => keychain.FPath q = keychain.FPath p /\
                       keychain.FRefreshRate q = effective_rate (keychain.FRefreshRate p) /\
                       keychain.FRefreshRate q <> 0)) in H; [exact H| |].
    + intros w q (H1 & H2 & H3). unfold keychain.File_update.
      destruct (keychain.ReadDir w _); [|simpl; auto].
      destruct (keychain.File_collect _ _ _ _); simpl; auto.
    + unfold effective_rate.
      destruct (Z.eqb_spec (keychain.FRefreshRate p) 0) as [E|N]; simpl.
      * repeat split. discriminate.
      * auto.
  - intros cfg evs p p' H. unfold keychain.S3Provider_Run in H.
    set (Inv := fun q => keychain.Bucket q = keychain.Bucket p /\
                         keychain.SPath q = keychain.SPath p /\
                         keychain.SRefreshRate q = effective_rate (keychain.SRefreshRate p) /\
                         keychain.SRefreshRate q <> 0).
    assert (Hupd : forall w q, Inv q -> Inv (fst (keychain.S3_update w q))).
    { intros w q (H1 & H2 & H3 & H4). unfold keychain.S3_update.
      destruct (keychain.ListObjectsV2 w _ _); [|simpl; unfold Inv; auto].
      destruct (keychain.S3_collect _ _ _ _ _); simpl; unfold Inv; auto. }
    assert (H0 : Inv (if keychain.SRefreshRate p =? 0
                      then {| keychain.Bucket := keychain.Bucket p;
                              keychain.SPath := keychain.SPath p;
                              keychain.SRefreshRate := keychain.ten_seconds;
                              keychain.client := keychain.client p;
                              keychain.Sdata := keychain.Sdata p |}
                      else p)).
    { unfold Inv, effective_rate.
      destruct (Z.eqb_spec (keychain.SRefreshRate p) 0); simpl;
        repeat split; auto; discriminate. }
    destruct (keychain.client _) eqn:Ec.
    + exact (run_loop_invariant keychain.S3_update Inv evs _ true 0%nat p' Hupd H0 H).
    + destruct cfg as [c|e].
      * change (Inv p'). revert H.
        apply (run_loop_invariant keychain.S3_update Inv); [exact Hupd|].
        destruct H0 as (H1 & H2 & H3 & H4). unfold Inv. simpl. auto.
      * simpl in H. injection H as <-. exact H0.
Qed.

Lemma run_keeps_configuration_witness :
  let p' := fst (keychain.File_update Codebook.dir_ok
                   (keychain.mkFileProvider "/keys" keychain.ten_seconds
                      (keychain.Fdata Codebook.keys))) in
  keychain.FPath p' = "/keys" /\ keychain.FRefreshRate p' = keychain.ten_seconds.
Proof.
  intros p'.
  destruct (proj1 run_keeps_configuration
              [keychain.SelNext Codebook.dir_ok; keychain.SelTick] Codebook.keys p'
              eq_refl) as (H1 & H2 & _).
  split; [exact H1|exact H2].
Defined.

(** ** What the validator looks at *)






